(** * EarPeaceLanding: the scroll-driven hero canvas of [script.js]

    A shallow embedding of the [HeroCanvas] class of [src/script.js] (the
    eased variant) and of the scroll handler of [src/unnamed/part_000] (the
    direct variant), with the properties of the frame scrubber stated over it.

    Numbers.  A JavaScript number is modelled as an exact rational, or one of
    the three special values [NaN], [+Infinity], [-Infinity] that the
    operations of the script can produce.  Rounding of binary64 arithmetic is
    not modelled, and neither is the sign of zero: the only divisor that can
    be zero in the script is a difference of two integers, which is [+0]. *)

From Stdlib Require Import ZArith QArith Qminmax Qround Qabs Lqa Lia Bool.
From Stdlib Require DecimalString DecimalNat.
From Stdlib Require Import Ascii.
From stdpp Require Import base list strings.

Local Open Scope Q_scope.

(** ** JavaScript numbers *)

Module JS.

Inductive num : Type :=
  | NaN
  | NegInf
  | PosInf
  | Fin (q : Q).

Definition of_Z (z : Z) : num := Fin (inject_Z z).

(** Sign of a rational, as a [comparison] with zero. *)
Definition sgn (q : Q) : comparison := q ?= 0.

Definition neg (x : num) : num :=
  match x with
  | NaN => NaN
  | NegInf => PosInf
  | PosInf => NegInf
  | Fin q => Fin (- q)
  end.

(** [x + y] *)
Definition add (x y : num) : num :=
  match x, y with
  | NaN, _ | _, NaN => NaN
  | Fin a, Fin b => Fin (a + b)
  | PosInf, NegInf | NegInf, PosInf => NaN
  | PosInf, _ | _, PosInf => PosInf
  | NegInf, _ | _, NegInf => NegInf
  end.

(** [x - y] *)
Definition sub (x y : num) : num := add x (neg y).

(** An infinity of the sign given by [c]; [0 * Infinity] is [NaN]. *)
Definition signed_inf (c : comparison) : num :=
  match c with
  | Eq => NaN
  | Lt => NegInf
  | Gt => PosInf
  end.

(** [x * y] *)
Definition mul (x y : num) : num :=
  match x, y with
  | NaN, _ | _, NaN => NaN
  | Fin a, Fin b => Fin (a * b)
  | PosInf, Fin b | Fin b, PosInf => signed_inf (sgn b)
  | NegInf, Fin b | Fin b, NegInf => signed_inf (CompOpp (sgn b))
  | PosInf, PosInf | NegInf, NegInf => PosInf
  | PosInf, NegInf | NegInf, PosInf => NegInf
  end.

(** [x / y]: a finite non-zero number over zero is an infinity, [0 / 0] is
    [NaN]. *)
Definition div (x y : num) : num :=
  match x, y with
  | NaN, _ | _, NaN => NaN
  | Fin a, Fin b =>
      match sgn b with
      | Eq => signed_inf (sgn a)
      | _ => Fin (a / b)
      end
  | Fin _, _ => Fin 0
  | PosInf, Fin b => match sgn b with Lt => NegInf | _ => PosInf end
  | NegInf, Fin b => match sgn b with Lt => PosInf | _ => NegInf end
  | _, _ => NaN
  end.

(** [Math.min(x, y)]: [NaN] when either argument is. *)
Definition Math_min (x y : num) : num :=
  match x, y with
  | NaN, _ | _, NaN => NaN
  | NegInf, _ | _, NegInf => NegInf
  | PosInf, z | z, PosInf => z
  | Fin a, Fin b => Fin (Qmin a b)
  end.

(** [Math.max(x, y)]: [NaN] when either argument is. *)
Definition Math_max (x y : num) : num :=
  match x, y with
  | NaN, _ | _, NaN => NaN
  | PosInf, _ | _, PosInf => PosInf
  | NegInf, z | z, NegInf => z
  | Fin a, Fin b => Fin (Qmax a b)
  end.

(** [Math.floor(x)] *)
Definition Math_floor (x : num) : num :=
  match x with
  | Fin q => of_Z (Qfloor q)
  | _ => x
  end.

(** [Math.round(x)]: the nearest integer, ties towards [+Infinity]. *)
Definition Math_round (x : num) : num :=
  match x with
  | Fin q => of_Z (Qfloor (q + (1 # 2)))
  | _ => x
  end.

(** [x <= y]: false when either side is [NaN]. *)
Definition le (x y : num) : bool :=
  match x, y with
  | NaN, _ | _, NaN => false
  | NegInf, _ | _, PosInf => true
  | Fin a, Fin b => Qle_bool a b
  | _, _ => false
  end.

(** [x > y] *)
Definition gt (x y : num) : bool :=
  match x, y with
  | NaN, _ | _, NaN => false
  | _, _ => negb (le x y)
  end.

(** [x >= y] *)
Definition ge (x y : num) : bool := le y x.

(** Truthiness of a number: everything but [0] and [NaN]. *)
Definition truthy (x : num) : bool :=
  match x with
  | NaN => false
  | Fin q => negb (Qeq_bool q 0)
  | _ => true
  end.

(** [x || y] on numbers *)
Definition or (x y : num) : num := if truthy x then x else y.

(** Equality of numbers as values: rationals up to [==]. *)
Definition eqv (x y : num) : Prop :=
  match x, y with
  | NaN, NaN | NegInf, NegInf | PosInf, PosInf => True
  | Fin a, Fin b => a == b
  | _, _ => False
  end.

(** A number is finite and lies in the closed interval from [lo] to [hi]. *)
Definition within (lo hi : Q) (x : num) : Prop :=
  match x with
  | Fin q => lo <= q <= hi
  | _ => False
  end.

Definition is_finite (x : num) : Prop :=
  match x with
  | Fin _ => True
  | _ => False
  end.

(** The integer an array index denotes, if the number is one: [a[x]] is
    [undefined] for every other [x]. *)
Definition array_index (x : num) : option nat :=
  match x with
  | Fin q =>
      if Qeq_bool q (inject_Z (Qfloor q)) && (0 <=? Qfloor q)%Z
      then Some (Z.to_nat (Qfloor q))
      else None
  | _ => None
  end.

End JS.

Infix "=n=" := JS.eqv (at level 70, no associativity).

(** ** The hero canvas: data *)

(** An image element, by the dimensions it reports. *)
Record image : Type := Image {
  img_width : Z;
  img_height : Z
}.

(** An image element whose load failed reports no dimensions. *)
Definition broken_image : image := Image 0 0.

(** Calls made on the 2D context, in the order they are issued. *)
Inductive draw_cmd : Type :=
  | SetTransform (a b c d e f : JS.num)
  | ClearRect (x y w h : JS.num)
  | Save
  | DrawImage (img : image) (dx dy dw dh : JS.num)
  | Restore.

(** What the handlers read from [window] and [document.documentElement]. *)
Record Window : Type := {
  scrollY : Q;
  docScrollTop : Q;
  scrollHeight : Z;
  innerWidth : Z;
  innerHeight : Z;
  devicePixelRatio : Q
}.

(** The fields of a [HeroCanvas], with the canvas element it owns and the
    class list of the [.hero] element it signals to. *)
Record HeroCanvas : Type := {
  totalFrames : Z;
  images : list (option image);
  loaded : Z;
  currentFrame : JS.num;
  targetFrame : JS.num;
  ease : Q;
  canvas_width : JS.num;
  canvas_height : JS.num;
  clientWidth : Z;
  clientHeight : Z;
  style_opacity : option JS.num;
  ctx_calls : list draw_cmd;
  hero_classList : list string
}.

Definition set_images (v : list (option image)) (h : HeroCanvas) : HeroCanvas :=
  {| totalFrames := totalFrames h; images := v; loaded := loaded h;
     currentFrame := currentFrame h; targetFrame := targetFrame h;
     ease := ease h; canvas_width := canvas_width h;
     canvas_height := canvas_height h; clientWidth := clientWidth h;
     clientHeight := clientHeight h; style_opacity := style_opacity h;
     ctx_calls := ctx_calls h; hero_classList := hero_classList h |}.

Definition set_loaded (v : Z) (h : HeroCanvas) : HeroCanvas :=
  {| totalFrames := totalFrames h; images := images h; loaded := v;
     currentFrame := currentFrame h; targetFrame := targetFrame h;
     ease := ease h; canvas_width := canvas_width h;
     canvas_height := canvas_height h; clientWidth := clientWidth h;
     clientHeight := clientHeight h; style_opacity := style_opacity h;
     ctx_calls := ctx_calls h; hero_classList := hero_classList h |}.

Definition set_currentFrame (v : JS.num) (h : HeroCanvas) : HeroCanvas :=
  {| totalFrames := totalFrames h; images := images h; loaded := loaded h;
     currentFrame := v; targetFrame := targetFrame h;
     ease := ease h; canvas_width := canvas_width h;
     canvas_height := canvas_height h; clientWidth := clientWidth h;
     clientHeight := clientHeight h; style_opacity := style_opacity h;
     ctx_calls := ctx_calls h; hero_classList := hero_classList h |}.

Definition set_targetFrame (v : JS.num) (h : HeroCanvas) : HeroCanvas :=
  {| totalFrames := totalFrames h; images := images h; loaded := loaded h;
     currentFrame := currentFrame h; targetFrame := v;
     ease := ease h; canvas_width := canvas_width h;
     canvas_height := canvas_height h; clientWidth := clientWidth h;
     clientHeight := clientHeight h; style_opacity := style_opacity h;
     ctx_calls := ctx_calls h; hero_classList := hero_classList h |}.

(** Assigning [canvas.width], [canvas.height], [style.width] and
    [style.height]: the canvas has no border or padding, so its client box is
    the styled size. *)
Definition set_canvas_size (bw bh : JS.num) (cw ch : Z) (h : HeroCanvas)
  : HeroCanvas :=
  {| totalFrames := totalFrames h; images := images h; loaded := loaded h;
     currentFrame := currentFrame h; targetFrame := targetFrame h;
     ease := ease h; canvas_width := bw;
     canvas_height := bh; clientWidth := cw;
     clientHeight := ch; style_opacity := style_opacity h;
     ctx_calls := ctx_calls h; hero_classList := hero_classList h |}.

(** [canvas.style.opacity = String(v)] *)
Definition set_opacity (v : JS.num) (h : HeroCanvas) : HeroCanvas :=
  {| totalFrames := totalFrames h; images := images h; loaded := loaded h;
     currentFrame := currentFrame h; targetFrame := targetFrame h;
     ease := ease h; canvas_width := canvas_width h;
     canvas_height := canvas_height h; clientWidth := clientWidth h;
     clientHeight := clientHeight h; style_opacity := Some v;
     ctx_calls := ctx_calls h; hero_classList := hero_classList h |}.

(** One more call on the 2D context. *)
Definition ctx_call (c : draw_cmd) (h : HeroCanvas) : HeroCanvas :=
  {| totalFrames := totalFrames h; images := images h; loaded := loaded h;
     currentFrame := currentFrame h; targetFrame := targetFrame h;
     ease := ease h; canvas_width := canvas_width h;
     canvas_height := canvas_height h; clientWidth := clientWidth h;
     clientHeight := clientHeight h; style_opacity := style_opacity h;
     ctx_calls := ctx_calls h ++ [c]; hero_classList := hero_classList h |}.

Definition set_hero_classList (v : list string) (h : HeroCanvas) : HeroCanvas :=
  {| totalFrames := totalFrames h; images := images h; loaded := loaded h;
     currentFrame := currentFrame h; targetFrame := targetFrame h;
     ease := ease h; canvas_width := canvas_width h;
     canvas_height := canvas_height h; clientWidth := clientWidth h;
     clientHeight := clientHeight h; style_opacity := style_opacity h;
     ctx_calls := ctx_calls h; hero_classList := v |}.

(** [classList.add(c)]: a class list is a set of tokens. *)
Definition classList_add (c : string) (l : list string) : list string :=
  if bool_decide (c ∈ l) then l else l ++ [c].

(** [classList.remove(c)] *)
Definition classList_remove (c : string) (l : list string) : list string :=
  filter (λ x, x ≠ c) l.

(** [classList.contains(c)] *)
Definition classList_contains (c : string) (l : list string) : bool :=
  bool_decide (c ∈ l).

(** [this.images[index]]: [None] stands for [undefined], the value of a hole
    of [new Array(totalFrames)] and of every index that is not a slot. *)
Definition images_at (h : HeroCanvas) (index : JS.num) : option image :=
  match JS.array_index index with
  | Some i => mjoin (images h !! i)
  | None => None
  end.

(** ** The hero canvas: methods of [script.js] *)

Definition fadeThreshold : JS.num := JS.of_Z 8.

(** The placement computed by [drawFrame]:
    [(offsetX, offsetY, drawWidth, drawHeight)]. *)
Definition aspect_fit (cssW cssH : Z) (img : image)
  : JS.num * JS.num * JS.num * JS.num :=
  let canvasRatio := JS.div (JS.of_Z cssW) (JS.of_Z cssH) in
  let imgRatio := JS.div (JS.of_Z (img_width img)) (JS.of_Z (img_height img)) in
  if JS.gt canvasRatio imgRatio then
    let drawWidth := JS.of_Z cssW in
    let drawHeight := JS.div drawWidth imgRatio in
    let offsetY := JS.div (JS.sub (JS.of_Z cssH) drawHeight) (JS.of_Z 2) in
    (JS.of_Z 0, offsetY, drawWidth, drawHeight)
  else
    let drawHeight := JS.of_Z cssH in
    let drawWidth := JS.mul drawHeight imgRatio in
    let offsetX := JS.div (JS.sub (JS.of_Z cssW) drawWidth) (JS.of_Z 2) in
    (offsetX, JS.of_Z 0, drawWidth, drawHeight).

(** The opacity [drawFrame] gives the canvas: the last frames fade. *)
Definition fade_alpha (N : Z) (index : JS.num) : JS.num :=
  if JS.le (JS.sub (JS.of_Z N) index) fadeThreshold then
    JS.Math_max (JS.of_Z 0) (JS.div (JS.sub (JS.of_Z N) index) fadeThreshold)
  else JS.of_Z 1.

(** [drawFrame(index)] *)
Definition drawFrame (index : JS.num) (h : HeroCanvas) : HeroCanvas :=
  match images_at h index with
  | None => h
  | Some img =>
      if (img_width img =? 0)%Z then h
      else
        let cssW := clientWidth h in
        let cssH := clientHeight h in
        let h := ctx_call (ClearRect (JS.of_Z 0) (JS.of_Z 0)
                             (JS.of_Z cssW) (JS.of_Z cssH)) h in
        let '(offsetX, offsetY, drawWidth, drawHeight) :=
          aspect_fit cssW cssH img in
        let h := set_opacity (fade_alpha (totalFrames h) index) h in
        let h := ctx_call Save h in
        let h :=
          ctx_call (DrawImage img offsetX offsetY drawWidth drawHeight) h in
        ctx_call Restore h
  end.

(** [resize()] *)
Definition resize (w : Window) (h : HeroCanvas) : HeroCanvas :=
  let dpr := JS.or (JS.Fin (devicePixelRatio w)) (JS.of_Z 1) in
  let h := set_canvas_size
             (JS.Math_round (JS.mul (JS.of_Z (innerWidth w)) dpr))
             (JS.Math_round (JS.mul (JS.of_Z (innerHeight w)) dpr))
             (innerWidth w) (innerHeight w) h in
  let h := ctx_call (SetTransform dpr (JS.of_Z 0) (JS.of_Z 0) dpr
                       (JS.of_Z 0) (JS.of_Z 0)) h in
  match images_at h (JS.Math_floor (currentFrame h)) with
  | Some _ => drawFrame (JS.Math_floor (currentFrame h)) h
  | None => h
  end.

(** The scroll measurement of [onScroll]. *)
Definition scrollTop (w : Window) : JS.num :=
  JS.or (JS.Fin (scrollY w)) (JS.Fin (docScrollTop w)).

Definition maxScrollTop (w : Window) : JS.num :=
  JS.of_Z (scrollHeight w - innerHeight w).

Definition scrollFraction (w : Window) : JS.num :=
  JS.Math_max (JS.of_Z 0)
    (JS.Math_min (JS.of_Z 1) (JS.div (scrollTop w) (maxScrollTop w))).

(** The target [onScroll] assigns, from the fraction. *)
Definition target_of_fraction (N : Z) (f : JS.num) : JS.num :=
  JS.Math_min (JS.of_Z (N - 1)) (JS.mul f (JS.of_Z N)).

(** [onScroll] of [bindScroll] *)
Definition onScroll (w : Window) (h : HeroCanvas) : HeroCanvas :=
  set_targetFrame (target_of_fraction (totalFrames h) (scrollFraction w)) h.

(** The smoothing update of [loop]:
    [currentFrame += (targetFrame - currentFrame) * ease]. *)
Definition smooth (e : Q) (target current : JS.num) : JS.num :=
  JS.add current (JS.mul (JS.sub target current) (JS.Fin e)).

(** [crossfadeIfEnding()] *)
Definition crossfadeIfEnding (h : HeroCanvas) : HeroCanvas :=
  if JS.ge (currentFrame h) (JS.of_Z (totalFrames h - 2)) then
    set_hero_classList (classList_add "visible" (hero_classList h)) h
  else h.

(** One run of [loop], without the request for the next one. *)
Definition loop (h : HeroCanvas) : HeroCanvas :=
  let h :=
    set_currentFrame (smooth (ease h) (targetFrame h) (currentFrame h)) h in
  let h := drawFrame (JS.Math_floor (currentFrame h)) h in
  crossfadeIfEnding h.

(** The constructor up to the call of [init]: the canvas element is as the
    page has it, with client box [cw] by [ch] and no opacity set by script. *)
Definition constructor (N : Z) (bw bh : JS.num) (cw ch : Z)
    (classes : list string) : HeroCanvas :=
  {| totalFrames := N; images := replicate (Z.to_nat N) None; loaded := 0;
     currentFrame := JS.of_Z 0; targetFrame := JS.of_Z 0;
     ease := 6 # 100; canvas_width := bw; canvas_height := bh;
     clientWidth := cw; clientHeight := ch; style_opacity := None;
     ctx_calls := []; hero_classList := classes |}.

(** ** The direct variant of [onScroll] (the other source file)

    It has no [targetFrame]: the handler assigns the integer frame to
    [currentFrame], and [loop] draws it. *)

Definition frameIndex_direct (N : Z) (f : JS.num) : JS.num :=
  JS.Math_min (JS.of_Z (N - 1)) (JS.Math_floor (JS.mul f (JS.of_Z N))).

Definition onScroll_direct (w : Window) (h : HeroCanvas) : HeroCanvas :=
  set_currentFrame (frameIndex_direct (totalFrames h) (scrollFraction w)) h.

(** ** Preloading and the event loop

    The page is single-threaded: handlers run one at a time, in the order the
    browser delivers their events.  [preloadFrames] creates one promise per
    frame and waits on [Promise.all] of them; the reaction registered by
    [init] with [then] runs when that promise is fulfilled. *)

Inductive promise_state : Type :=
  | Pending
  | Fulfilled
  | Rejected.

Definition is_fulfilled (p : promise_state) : bool :=
  match p with
  | Fulfilled => true
  | _ => false
  end.

Record Page : Type := {
  hero : HeroCanvas;
  (** the promises pushed by [preloadFrames], by frame *)
  frame_promises : list promise_state;
  (** the promise returned by [Promise.all(promises)] *)
  all_promise : promise_state;
  (** how many times the reaction of [init] has run *)
  then_runs : nat;
  (** whether [bindScroll] has registered [onScroll] and started [loop] *)
  scroll_bound : bool
}.

Definition set_hero (v : HeroCanvas) (p : Page) : Page :=
  {| hero := v; frame_promises := frame_promises p;
     all_promise := all_promise p; then_runs := then_runs p;
     scroll_bound := scroll_bound p |}.

(** The reaction of [init]: [drawFrame(0)], show the canvas, [bindScroll()]. *)
Definition init_then (p : Page) : Page :=
  {| hero := set_opacity (JS.of_Z 1) (drawFrame (JS.of_Z 0) (hero p));
     frame_promises := frame_promises p;
     all_promise := Fulfilled;
     then_runs := S (then_runs p);
     scroll_bound := true |}.

(** [Promise.all]: fulfilled, once, when every element is; rejected as soon
    as one element is. *)
Definition Promise_all_settle (p : Page) : Page :=
  match all_promise p with
  | Pending =>
      if existsb (λ s, match s with Rejected => true | _ => false end)
           (frame_promises p)
      then {| hero := hero p; frame_promises := frame_promises p;
              all_promise := Rejected; then_runs := then_runs p;
              scroll_bound := scroll_bound p |}
      else if forallb is_fulfilled (frame_promises p) then init_then p
      else p
  | _ => p
  end.

(** [resolve()] of the promise of frame [i]: settles it if it is pending. *)
Definition resolve_frame (i : nat) (p : Page) : Page :=
  match frame_promises p !! i with
  | Some Pending =>
      Promise_all_settle
        {| hero := hero p;
           frame_promises := <[i := Fulfilled]> (frame_promises p);
           all_promise := all_promise p; then_runs := then_runs p;
           scroll_bound := scroll_bound p |}
  | _ => p
  end.

(** [img.onload] of frame [i], for the decoded image [img]. *)
Definition img_onload (i : nat) (img : image) (p : Page) : Page :=
  let h := hero p in
  let h := set_images (<[i := Some img]> (images h)) h in
  let h := set_loaded (loaded h + 1) h in
  resolve_frame i (set_hero h p).

(** [img.onerror] of frame [i]: the element is stored all the same. *)
Definition img_onerror (i : nat) (p : Page) : Page :=
  let h := hero p in
  let h := set_images (<[i := Some broken_image]> (images h)) h in
  resolve_frame i (set_hero h p).

(** [new HeroCanvas({canvasId, totalFrames})]: the constructor, [init] with
    its first [resize], and [preloadFrames] up to the creation of
    [Promise.all], whose reaction runs at once when there is no frame. *)
Definition new_HeroCanvas (N : Z) (w : Window) (bw bh : JS.num) (cw ch : Z)
    (classes : list string) : Page :=
  Promise_all_settle
    {| hero := resize w (constructor N bw bh cw ch classes);
       frame_promises := replicate (Z.to_nat N) Pending;
       all_promise := Pending;
       then_runs := 0;
       scroll_bound := false |}.

(** The events the script has handlers for. [Reveal] and [Highlight] are the
    class-list changes of the section and spec observers, taken at the
    [.hero] element in case it is one of the elements they observe. *)
Inductive event : Type :=
  | Load (i : nat) (img : image)
  | Error (i : nat)
  | Scroll (w : Window)
  | Frame
  | Resize (w : Window)
  | Reveal
  | Highlight (active : bool).

(** The frame a fetch event belongs to. *)
Definition fetch_index (ev : event) : option nat :=
  match ev with
  | Load i _ | Error i => Some i
  | _ => None
  end.

(** One event, handled to completion. A fetch event of a frame that has no
    image element has no handler. *)
Definition handle (p : Page) (ev : event) : Page :=
  match ev with
  | Load i img =>
      if bool_decide (i < length (frame_promises p))%nat
      then img_onload i img p else p
  | Error i =>
      if bool_decide (i < length (frame_promises p))%nat
      then img_onerror i p else p
  | Scroll w =>
      if scroll_bound p then set_hero (onScroll w (hero p)) p else p
  | Frame =>
      if scroll_bound p then set_hero (loop (hero p)) p else p
  | Resize w => set_hero (resize w (hero p)) p
  | Reveal =>
      let l := classList_add "visible" (hero_classList (hero p)) in
      set_hero (set_hero_classList l (hero p)) p
  | Highlight active =>
      let l := classList_remove "active" (hero_classList (hero p)) in
      let l := if active then classList_add "active" l else l in
      set_hero (set_hero_classList l (hero p)) p
  end.

(** A run of the page over a sequence of events. *)
Definition run (p : Page) (evs : list event) : Page := foldl handle p evs.

(** ** Properties as the specification words them *)

(** The invariant of the scrub state. *)
Definition scrub_invariant (h : HeroCanvas) : Prop :=
  JS.within 0 (inject_Z (totalFrames h - 1)) (targetFrame h) /\
  JS.within 0 (inject_Z (totalFrames h - 1)) (currentFrame h).

(** [clamp(x, lo, hi)] on integers and on rationals. *)
Definition clampZ (x lo hi : Z) : Z := Z.max lo (Z.min hi x).
Definition clampQ (x lo hi : Q) : Q := Qmax lo (Qmin hi x).

(** A cache slot that [drawFrame] cannot draw: empty, or the element of a
    failed load. *)
Definition slot_unavailable (slot : option image) : Prop :=
  match slot with
  | None => True
  | Some img => img_width img = 0%Z
  end.

(** The ticks after which smoothing at rate [e] has brought a distance [d]
    below [eps]: [ceil(1/e)] ticks halve the distance, and
    [log2_up(ceil(d/eps) + 1)] halvings are enough. *)
Definition halving_ticks (e : Q) : nat := Z.to_nat (Qceiling (/ e)).
Definition halvings (d eps : Q) : nat :=
  Z.to_nat (Z.log2_up (Qceiling (d / eps) + 1)).
Definition ticks_bound (e d eps : Q) : nat :=
  (halving_ticks e * halvings d eps)%nat.

(** [n] smoothing updates towards a fixed target. *)
Definition smooth_iter (e : Q) (target : JS.num) (n : nat) (c : JS.num)
  : JS.num := Nat.iter n (smooth e target) c.

(** The value of [window.scrollY || document.documentElement.scrollTop]. *)
Definition scrollTopQ (w : Window) : Q :=
  if Qeq_bool (scrollY w) 0 then docScrollTop w else scrollY w.

(** The smoothing update on finite numbers. *)
Definition smoothQ (e t c : Q) : Q := c + (t + - c) * e.

(** The distance of a position from the target. *)
Definition gap (t c : Q) : Q := Qabs (t - c).

(** The frames whose fetch has come back, in the order of the events. *)
Definition fetches (evs : list event) : list nat := omap fetch_index evs.

(** What the handler of a fetch event stores in the cache. *)
Definition stored_image (ev : event) : option image :=
  match ev with
  | Load _ img => Some img
  | Error _ => Some broken_image
  | _ => None
  end.

(** What the last fetch event of frame [i] stored, if there was one. *)
Fixpoint last_fetch (evs : list event) (i : nat) : option image :=
  match evs with
  | [] => None
  | ev :: rest =>
      match last_fetch rest i with
      | Some img => Some img
      | None =>
          if bool_decide (fetch_index ev = Some i) then stored_image ev
          else None
      end
  end.

(** Two states of the canvas with the same scrub state and signal. *)
Definition same_scrub (h h' : HeroCanvas) : Prop :=
  totalFrames h = totalFrames h' /\
  ease h = ease h' /\
  currentFrame h = currentFrame h' /\
  targetFrame h = targetFrame h' /\
  hero_classList h = hero_classList h'.

(** The promises of [preloadFrames] agree with the set [seen] of frames
    whose fetch has come back, and [Promise.all] with the promises. *)
Definition promises_inv (n : nat) (seen : nat -> bool) (p : Page) : Prop :=
  length (frame_promises p) = n /\
  (forall j, (j < n)%nat ->
     frame_promises p !! j = Some (if seen j then Fulfilled else Pending)) /\
  all_promise p =
    (if forallb is_fulfilled (frame_promises p) then Fulfilled else Pending) /\
  then_runs p =
    (if forallb is_fulfilled (frame_promises p) then 1%nat else 0%nat) /\
  scroll_bound p = forallb is_fulfilled (frame_promises p).

(** The page after the events [evs] of a canvas of [n] frames. *)
Definition preload_inv (n : nat) (evs : list event) (p : Page) : Prop :=
  promises_inv n (fun j => bool_decide (j ∈ fetches evs)) p /\
  length (images (hero p)) = n /\
  (forall j, (j < n)%nat -> images (hero p) !! j = Some (last_fetch evs j)).

(** ** The rest of the script *)

(** [String(i)] for a frame number: its decimal digits. *)
Definition String_of_nat (i : nat) : string :=
  DecimalString.NilEmpty.string_of_uint (Nat.to_uint i).

(** [s.padStart(n, "0")]: zeros in front up to the length [n], none when
    [s] is that long already. *)
Definition padStart0 (n : nat) (s : string) : string :=
  Nat.iter (n - String.length s) (String "0"%char) s.

(** The template of [FRAME_URL], by the prefix of the assets. *)
Definition frame_url (prefix : string) (i : nat) : string :=
  prefix +:+ padStart0 4 (String_of_nat i) +:+ ".png".

(** [FRAME_URL] of [script.js] *)
Definition FRAME_URL (i : nat) : string := frame_url "assets/" i.

(** How many [load] events the handlers of a canvas of [n] frames have
    seen. *)
Fixpoint loads_seen (n : nat) (evs : list event) : Z :=
  match evs with
  | [] => 0
  | Load i _ :: rest =>
      (if bool_decide (i < n)%nat then 1 else 0) + loads_seen n rest
  | _ :: rest => loads_seen n rest
  end%Z.

(** The events of the render loop once it is bound. *)
Definition is_scrub_event (ev : event) : Prop :=
  match ev with
  | Scroll _ | Frame => True
  | _ => False
  end.

(** The parallax handler, for one element: [parsed] is the number
    [parseFloat] returns for its [data-parallax-speed] attribute, [NaN] when
    it does not start with a number. The result is the argument of
    [translateY], in pixels. *)
Definition parallax_speed (parsed : JS.num) : JS.num :=
  JS.or parsed (JS.Fin (2 # 100)).

Definition parallax_translateY (scY : Q) (parsed : JS.num) : JS.num :=
  JS.neg (JS.mul (JS.Fin scY) (parallax_speed parsed)).

(** [x === y] on numbers *)
Definition strict_eq (x y : JS.num) : bool :=
  match x, y with
  | JS.Fin a, JS.Fin b => Qeq_bool a b
  | JS.PosInf, JS.PosInf | JS.NegInf, JS.NegInf => true
  | _, _ => false
  end.

(** A [.spec] element: the number [Number(s.dataset.index)] and its class
    list. *)
Record spec_el : Type := {
  dataset_index : JS.num;
  spec_classList : list string
}.

Definition spec_remove_active (s : spec_el) : spec_el :=
  {| dataset_index := dataset_index s;
     spec_classList := classList_remove "active" (spec_classList s) |}.

Definition spec_add_active (s : spec_el) : spec_el :=
  {| dataset_index := dataset_index s;
     spec_classList := classList_add "active" (spec_classList s) |}.

(** [specs.find(s => Number(s.dataset.index) === idx)] followed by
    [classList.add('active')] on the element found, if any. *)
Fixpoint activate_first (idx : JS.num) (specs : list spec_el) : list spec_el :=
  match specs with
  | [] => []
  | s :: rest =>
      if strict_eq (dataset_index s) idx then spec_add_active s :: rest
      else s :: activate_first idx rest
  end.

(** The callback of the spec observer for one entry: [idx] is the number
    [Number(id.split('-')[1])] of the observed detail block. *)
Definition spec_entry (isIntersecting : bool) (idx : JS.num)
    (specs : list spec_el) : list spec_el :=
  if isIntersecting then activate_first idx (spec_remove_active <$> specs)
  else specs.

(** The callback over its entries, in order. *)
Definition spec_callback (entries : list (bool * JS.num))
    (specs : list spec_el) : list spec_el :=
  foldl (fun sp e => spec_entry e.1 e.2 sp) specs entries.

Definition spec_active (s : spec_el) : bool :=
  classList_contains "active" (spec_classList s).

(** The position of the first element [find] accepts. *)
Fixpoint first_match (idx : JS.num) (specs : list spec_el) : option nat :=
  match specs with
  | [] => None
  | s :: rest =>
      if strict_eq (dataset_index s) idx then Some 0%nat
      else S <$> first_match idx rest
  end.

(** ** The direct variant of the class (the other source file)

    It has the fields of the eased class but [targetFrame] and [ease], which
    it never reads, and the flag [needsRender]. [drawFrame],
    [crossfadeIfEnding] and [preloadFrames] are the same in both files. *)

Module Direct.

(** [FRAME_URL] of the other source file *)
Definition FRAME_URL (i : nat) : string :=
  frame_url
    "https://www.apple.com/105/media/us/airpods-pro/2022/d2deeb8e-83eb-48ea-9721-f567cf0fffa8/anim/hero/medium/"
    i.

Record Hero : Type := {
  base : HeroCanvas;
  needsRender : bool
}.

(** The constructor up to the call of [init]. *)
Definition constructor (N : Z) (bw bh : JS.num) (cw ch : Z)
    (classes : list string) : Hero :=
  {| base := constructor N bw bh cw ch classes; needsRender := false |}.

(** [resize()]: redraws [currentFrame], which is an integer here. *)
Definition resize (w : Window) (d : Hero) : Hero :=
  let h := base d in
  let dpr := JS.or (JS.Fin (devicePixelRatio w)) (JS.of_Z 1) in
  let h := set_canvas_size
             (JS.Math_round (JS.mul (JS.of_Z (innerWidth w)) dpr))
             (JS.Math_round (JS.mul (JS.of_Z (innerHeight w)) dpr))
             (innerWidth w) (innerHeight w) h in
  let h := ctx_call (SetTransform dpr (JS.of_Z 0) (JS.of_Z 0) dpr
                       (JS.of_Z 0) (JS.of_Z 0)) h in
  let h := match images_at h (currentFrame h) with
           | Some _ => drawFrame (currentFrame h) h
           | None => h
           end in
  {| base := h; needsRender := needsRender d |}.

(** [onScroll] of [bindScroll] *)
Definition onScroll (w : Window) (d : Hero) : Hero :=
  {| base := onScroll_direct w (base d); needsRender := true |}.

(** One run of [loop], without the request for the next one. *)
Definition loop (d : Hero) : Hero :=
  if needsRender d then
    let h := drawFrame (currentFrame (base d)) (base d) in
    let h := crossfadeIfEnding h in
    {| base := h; needsRender := false |}
  else d.

(** The events of the bound canvas. *)
Inductive event : Type :=
  | Scroll (w : Window)
  | Frame
  | Resize (w : Window).

Definition handle (d : Hero) (ev : event) : Hero :=
  match ev with
  | Scroll w => onScroll w d
  | Frame => loop d
  | Resize w => resize w d
  end.

Definition run (d : Hero) (evs : list event) : Hero := foldl handle d evs.

(** The position is a frame of the sequence. *)
Definition frame_invariant (d : Hero) : Prop :=
  exists k : Z,
    currentFrame (base d) = JS.of_Z k /\
    (0 <= k <= totalFrames (base d) - 1)%Z.

End Direct.

(** The position is short of the last frame, the target is among the
    frames, and the opacity, once set, is at least a quarter. *)
Definition short_of_last (h : HeroCanvas) : Prop :=
  exists c t : Q,
    currentFrame h = JS.Fin c /\ targetFrame h = JS.Fin t /\
    (0 <= c /\ c < inject_Z (totalFrames h - 1)) /\
    0 <= t <= inject_Z (totalFrames h - 1) /\
    match style_opacity h with
    | None => True
    | Some a => JS.within (1 # 4) 1 a
    end.

(** The device pixel ratio [resize] works with: [devicePixelRatio || 1]. *)
Definition effective_dpr (w : Window) : Q :=
  if Qeq_bool (devicePixelRatio w) 0 then 1 else devicePixelRatio w.

(** ** Sample inputs *)

(** A window scrolled to [y] in a document [doc] pixels tall, seen through a
    viewport of 1200 by 900 pixels. *)
Definition window_at (y : Q) (doc : Z) : Window :=
  {| scrollY := y; docScrollTop := y; scrollHeight := doc;
     innerWidth := 1200; innerHeight := 900; devicePixelRatio := 1 |}.

(** The canvas of the page as the script builds it, before any frame has
    arrived. *)
Definition hero0 : HeroCanvas :=
  resize (window_at 0 1800)
    (constructor 248 (JS.of_Z 300) (JS.of_Z 150) 300 150 ["hero"]).

(** A decoded frame of the sequence. *)
Definition frame_image : image := Image 1920 1080.

(** The page once all 248 frames have loaded, in order. *)
Definition page_loaded : Page :=
  run (new_HeroCanvas 248 (window_at 0 1800) (JS.of_Z 300) (JS.of_Z 150)
         300 150 ["hero"])
      ((fun i => Load i frame_image) <$> seq 0 248).

(** A page of three frames, the second of which fails to load. *)
Definition page_three : Page :=
  new_HeroCanvas 3 (window_at 0 1800) (JS.of_Z 300) (JS.of_Z 150)
    300 150 ["hero"].

Definition events_three : list event :=
  [Load 2 frame_image; Error 1; Scroll (window_at 10 1800); Load 0 frame_image].

(** The loaded page scrolled to the bottom, with the position half a frame
    short of the last frame. *)
Definition page_near_end : Page :=
  set_hero
    (set_currentFrame (JS.Fin (493 # 2))
       (onScroll (window_at 900 1800) (hero page_loaded)))
    page_loaded.

(** What the visitor does next: back to the top, and the observers fire. *)
Definition events_back_up : list event :=
  [Scroll (window_at 0 1800); Frame; Highlight true; Frame; Highlight false;
   Resize (window_at 0 1800); Frame].

(** The canvas of the other source file with its 64 frames loaded. *)
Definition direct_loaded : Direct.Hero :=
  {| Direct.base :=
       set_images (replicate 64 (Some frame_image))
         (resize (window_at 0 1800)
            (constructor 64 (JS.of_Z 300) (JS.of_Z 150) 300 150 ["hero"]));
     Direct.needsRender := false |}.

(** Three spec elements, two of which carry the same index. *)
Definition specs_three : list spec_el :=
  [ {| dataset_index := JS.of_Z 0; spec_classList := ["spec"; "active"] |};
    {| dataset_index := JS.of_Z 1; spec_classList := ["spec"] |};
    {| dataset_index := JS.of_Z 1; spec_classList := ["spec"; "wide"] |} ].

(** ** Facts about numbers *)

Section NumFacts.

Lemma eqv_refl (x : JS.num) : x =n= x.
Proof. destruct x; simpl; auto with qarith. Qed.

Lemma eqv_sym (x y : JS.num) : x =n= y -> y =n= x.
Proof. destruct x, y; simpl; auto with qarith. Qed.

Lemma eqv_trans (x y z : JS.num) : x =n= y -> y =n= z -> x =n= z.
Proof.
  destruct x, y, z; simpl; try tauto.
  intros H1 H2. now rewrite H1.
Qed.

Lemma eqv_Fin_inv (x : JS.num) (q : Q) :
  x =n= JS.Fin q -> exists q', x = JS.Fin q' /\ q' == q.
Proof. destruct x; simpl; try tauto. eauto. Qed.

Lemma sgn_Eq (q : Q) : JS.sgn q = Eq <-> q == 0.
Proof. unfold JS.sgn. symmetry. apply Qeq_alt. Qed.

Lemma sgn_Lt (q : Q) : JS.sgn q = Lt <-> q < 0.
Proof. unfold JS.sgn. symmetry. apply Qlt_alt. Qed.

Lemma sgn_Gt (q : Q) : JS.sgn q = Gt <-> 0 < q.
Proof. unfold JS.sgn. symmetry. apply Qgt_alt. Qed.

Lemma Qmin_cases (a b : Q) :
  (a <= b /\ Qmin a b == a) \/ (b <= a /\ Qmin a b == b).
Proof.
  destruct (Qlt_le_dec b a) as [H | H].
  - right. split; [lra |]. apply Q.min_r. lra.
  - left. split; [lra |]. now apply Q.min_l.
Qed.

Lemma Qmax_cases (a b : Q) :
  (a <= b /\ Qmax a b == b) \/ (b <= a /\ Qmax a b == a).
Proof.
  destruct (Qlt_le_dec b a) as [H | H].
  - right. split; [lra |]. apply Q.max_l. lra.
  - left. split; [lra |]. now apply Q.max_r.
Qed.

Lemma clampQ_range (x lo hi : Q) : lo <= hi -> lo <= clampQ x lo hi <= hi.
Proof.
  intros H. unfold clampQ.
  destruct (Qmin_cases hi x) as [[? E1] | [? E1]];
    destruct (Qmax_cases lo (Qmin hi x)) as [[? E2] | [? E2]];
    rewrite E2; try rewrite E1; lra.
Qed.

Lemma clampQ_id (x lo hi : Q) : lo <= x <= hi -> clampQ x lo hi == x.
Proof.
  intros H. unfold clampQ.
  destruct (Qmin_cases hi x) as [[? E1] | [? E1]];
    destruct (Qmax_cases lo (Qmin hi x)) as [[? E2] | [? E2]];
    rewrite E2; try rewrite E1; lra.
Qed.

Lemma Qle_bool_true (a b : Q) : Qle_bool a b = true <-> a <= b.
Proof. apply Qle_bool_iff. Qed.

Lemma Qle_bool_false (a b : Q) : Qle_bool a b = false <-> b < a.
Proof.
  split; intros H.
  - apply Qnot_le_lt. intros C. apply Qle_bool_iff in C. congruence.
  - destruct (Qle_bool a b) eqn:E; [| reflexivity].
    apply Qle_bool_iff in E. lra.
Qed.

End NumFacts.

(** ** The scroll-to-target mapping *)

Section ScrollMapping.

Lemma scrollTop_Fin (w : Window) : scrollTop w = JS.Fin (scrollTopQ w).
Proof.
  unfold scrollTop, scrollTopQ, JS.or, JS.truthy.
  now destruct (Qeq_bool (scrollY w) 0).
Qed.

Lemma inject_Z_sgn_Eq (z : Z) : JS.sgn (inject_Z z) = Eq <-> z = 0%Z.
Proof.
  rewrite sgn_Eq. unfold Qeq. simpl. lia.
Qed.

(** The fraction on a scrollable document: the clamped quotient. *)
Lemma scrollFraction_scrollable (w : Window) :
  scrollHeight w <> innerHeight w ->
  scrollFraction w =
    JS.Fin (Qmax 0 (Qmin 1 (scrollTopQ w /
                              inject_Z (scrollHeight w - innerHeight w)))).
Proof.
  intros H. unfold scrollFraction, maxScrollTop. rewrite scrollTop_Fin.
  unfold JS.of_Z, JS.div.
  destruct (JS.sgn (inject_Z (scrollHeight w - innerHeight w))) eqn:E;
    try reflexivity.
  apply inject_Z_sgn_Eq in E. lia.
Qed.

(** The fraction on a document exactly as tall as the viewport. *)
Lemma scrollFraction_flat (w : Window) :
  scrollHeight w = innerHeight w ->
  match JS.sgn (scrollTopQ w) with
  | Eq => scrollFraction w = JS.NaN
  | Gt => scrollFraction w = JS.Fin (Qmax 0 1)
  | Lt => scrollFraction w = JS.Fin 0
  end.
Proof.
  intros H. unfold scrollFraction, maxScrollTop. rewrite scrollTop_Fin.
  replace (scrollHeight w - innerHeight w)%Z with 0%Z by lia.
  unfold JS.of_Z, JS.div. simpl.
  destruct (JS.sgn (scrollTopQ w)); reflexivity.
Qed.

(** The fraction is [NaN] exactly for [0 / 0]. *)
Lemma scrollFraction_NaN_iff (w : Window) :
  scrollFraction w = JS.NaN <->
  scrollTopQ w == 0 /\ scrollHeight w = innerHeight w.
Proof.
  destruct (Z.eq_dec (scrollHeight w) (innerHeight w)) as [E | E].
  - pose proof (scrollFraction_flat w E) as H.
    destruct (JS.sgn (scrollTopQ w)) eqn:S.
    + apply (proj1 (sgn_Eq _)) in S. tauto.
    + apply (proj1 (sgn_Lt _)) in S. rewrite H.
      split; [discriminate | intros [? _]; exfalso; lra].
    + apply (proj1 (sgn_Gt _)) in S. rewrite H.
      split; [discriminate | intros [? _]; exfalso; lra].
  - rewrite (scrollFraction_scrollable w E). split; [discriminate | tauto].
Qed.

(** Otherwise it is a rational between 0 and 1. *)
Lemma scrollFraction_cases (w : Window) :
  scrollFraction w = JS.NaN \/
  exists f, scrollFraction w = JS.Fin f /\ 0 <= f <= 1.
Proof.
  destruct (Z.eq_dec (scrollHeight w) (innerHeight w)) as [E | E].
  - pose proof (scrollFraction_flat w E) as H.
    destruct (JS.sgn (scrollTopQ w)); auto; right; eexists; split;
      try exact H.
    + lra.
    + apply (clampQ_range 1 0 1). lra.
  - right. eexists. split; [exact (scrollFraction_scrollable w E) |].
    apply (clampQ_range _ 0 1). lra.
Qed.

Lemma target_of_fraction_Fin (N : Z) (f : Q) :
  target_of_fraction N (JS.Fin f) =
    JS.Fin (Qmin (inject_Z (N - 1)) (f * inject_Z N)).
Proof. reflexivity. Qed.

Lemma target_of_fraction_NaN (N : Z) : target_of_fraction N JS.NaN = JS.NaN.
Proof. reflexivity. Qed.

(** The target of a finite fraction lies among the frames. *)
Lemma target_of_fraction_range (N : Z) (f : Q) :
  (1 <= N)%Z -> 0 <= f <= 1 ->
  JS.within 0 (inject_Z (N - 1)) (target_of_fraction N (JS.Fin f)).
Proof.
  intros HN Hf. rewrite target_of_fraction_Fin. simpl.
  assert (HN' : 0 <= inject_Z (N - 1)).
  { change 0 with (inject_Z 0). rewrite <- Zle_Qle. lia. }
  assert (HN'' : 0 <= inject_Z N).
  { change 0 with (inject_Z 0). rewrite <- Zle_Qle. lia. }
  destruct (Qmin_cases (inject_Z (N - 1)) (f * inject_Z N)) as [[? E] | [? E]];
    rewrite E; split; try lra.
  apply Qmult_le_0_compat; lra.
Qed.

(** The floor of the target is the clamped floor of [f * N]. *)
Lemma floor_target (N : Z) (f : Q) :
  (1 <= N)%Z -> 0 <= f ->
  Qfloor (Qmin (inject_Z (N - 1)) (f * inject_Z N)) =
    clampZ (Qfloor (f * inject_Z N)) 0 (N - 1).
Proof.
  intros HN Hf. unfold clampZ.
  assert (H0 : (0 <= Qfloor (f * inject_Z N))%Z).
  { rewrite <- (Qfloor_Z 0). apply Qfloor_resp_le.
    change (inject_Z 0) with 0. apply Qmult_le_0_compat; [lra |].
    change 0 with (inject_Z 0). rewrite <- Zle_Qle. lia. }
  destruct (Qmin_cases (inject_Z (N - 1)) (f * inject_Z N)) as [[L E] | [L E]];
    rewrite (Qfloor_comp _ _ E).
  - rewrite Qfloor_Z. apply Qfloor_resp_le in L. rewrite Qfloor_Z in L. lia.
  - apply Qfloor_resp_le in L. rewrite Qfloor_Z in L. lia.
Qed.

(** The two variants agree on every fraction, finite or not. *)
Lemma frameIndex_direct_floor_target (N : Z) (f : JS.num) :
  (1 <= N)%Z -> (forall q, f = JS.Fin q -> 0 <= q) ->
  frameIndex_direct N f =n= JS.Math_floor (target_of_fraction N f).
Proof.
  intros HN Hf.
  assert (HS : JS.sgn (inject_Z N) = Gt).
  { apply sgn_Gt. change 0 with (inject_Z 0). rewrite <- Zlt_Qlt. lia. }
  unfold frameIndex_direct, target_of_fraction.
  destruct f as [| | | q]; unfold JS.of_Z; cbn [JS.mul].
  - exact I.
  - rewrite HS. exact I.
  - rewrite HS.
    unfold JS.signed_inf, JS.Math_floor, JS.Math_min, JS.of_Z, JS.eqv.
    rewrite Qfloor_Z. reflexivity.
  - specialize (Hf q eq_refl).
    unfold JS.Math_floor, JS.Math_min, JS.of_Z, JS.eqv.
    rewrite (floor_target N q HN Hf). unfold clampZ.
    assert (H0 : (0 <= Qfloor (q * inject_Z N))%Z).
    { rewrite <- (Qfloor_Z 0). apply Qfloor_resp_le.
      change (inject_Z 0) with 0. apply Qmult_le_0_compat; [lra |].
      change 0 with (inject_Z 0). rewrite <- Zle_Qle. lia. }
    destruct (Qmin_cases (inject_Z (N - 1))
                (inject_Z (Qfloor (q * inject_Z N))))
      as [[L E] | [L E]]; rewrite E; rewrite <- Zle_Qle in L;
      apply inject_Z_injective; lia.
Qed.

End ScrollMapping.

(** ** Exponential smoothing towards a fixed target *)

Section Smoothing.

Variables e t : Q.
Hypothesis ease_range : 0 < e < 1.

Lemma smooth_Fin (c : Q) :
  smooth e (JS.Fin t) (JS.Fin c) = JS.Fin (smoothQ e t c).
Proof. reflexivity. Qed.

Lemma smooth_iter_Fin (n : nat) (c : Q) :
  smooth_iter e (JS.Fin t) n (JS.Fin c) = JS.Fin (Nat.iter n (smoothQ e t) c).
Proof.
  unfold smooth_iter. induction n as [| n IH]; [reflexivity |].
  simpl. rewrite IH. apply smooth_Fin.
Qed.

(** Each update leaves the fraction [1 - e] of the signed gap. *)
Lemma smoothQ_gap (c : Q) : t - smoothQ e t c == (1 - e) * (t - c).
Proof. unfold smoothQ. ring. Qed.

Lemma gap_step (c : Q) : gap t (smoothQ e t c) == (1 - e) * gap t c.
Proof.
  unfold gap. rewrite smoothQ_gap, Qabs_Qmult.
  rewrite (Qabs_pos (1 - e)) by lra. reflexivity.
Qed.

Lemma gap_nonneg (c : Q) : 0 <= gap t c.
Proof. apply Qabs_nonneg. Qed.

Lemma gap_step_le (c : Q) : gap t (smoothQ e t c) <= gap t c.
Proof.
  rewrite gap_step. pose proof (gap_nonneg c) as H.
  assert (0 <= e * gap t c) by (apply Qmult_le_0_compat; lra).
  assert (E : (1 - e) * gap t c == gap t c - e * gap t c) by ring.
  lra.
Qed.

(** From below the update moves up and stays below the target. *)
Lemma smoothQ_below (c : Q) : c <= t -> c <= smoothQ e t c <= t.
Proof.
  intros H. unfold smoothQ.
  assert (0 <= (t - c) * e) by (apply Qmult_le_0_compat; lra).
  assert (0 <= (t - c) * (1 - e)) by (apply Qmult_le_0_compat; lra).
  assert (E : (t + - c) * e == (t - c) - (t - c) * (1 - e)) by ring.
  assert (E' : (t + - c) * e == (t - c) * e) by ring.
  split; [rewrite E' | rewrite E]; lra.
Qed.

(** From above it moves down and stays above the target. *)
Lemma smoothQ_above (c : Q) : t <= c -> t <= smoothQ e t c <= c.
Proof.
  intros H. unfold smoothQ.
  assert (0 <= (c - t) * e) by (apply Qmult_le_0_compat; lra).
  assert (0 <= (c - t) * (1 - e)) by (apply Qmult_le_0_compat; lra).
  assert (E : (t + - c) * e == (c - t) * (1 - e) - (c - t)) by ring.
  assert (E' : (t + - c) * e == - ((c - t) * e)) by ring.
  split; [rewrite E | rewrite E']; lra.
Qed.

Lemma iter_below (n : nat) (c : Q) : c <= t -> Nat.iter n (smoothQ e t) c <= t.
Proof.
  intros H. induction n as [| n IH]; [exact H |].
  simpl. now apply smoothQ_below.
Qed.

Lemma iter_above (n : nat) (c : Q) : t <= c -> t <= Nat.iter n (smoothQ e t) c.
Proof.
  intros H. induction n as [| n IH]; [exact H |].
  simpl. now apply smoothQ_above.
Qed.

(** From below the position never falls under where it started, and from
    above it never rises over it. *)
Lemma iter_from_below (n : nat) (c : Q) :
  c <= t -> c <= Nat.iter n (smoothQ e t) c.
Proof.
  intros H. induction n as [| n IH]; [simpl; lra |].
  rewrite Nat.iter_succ.
  pose proof (smoothQ_below _ (iter_below n c H)). lra.
Qed.

Lemma iter_from_above (n : nat) (c : Q) :
  t <= c -> Nat.iter n (smoothQ e t) c <= c.
Proof.
  intros H. induction n as [| n IH]; [simpl; lra |].
  rewrite Nat.iter_succ.
  pose proof (smoothQ_above _ (iter_above n c H)). lra.
Qed.

(** The gap never grows. *)
Lemma gap_antitone (n k : nat) (c : Q) :
  gap t (Nat.iter (k + n) (smoothQ e t) c)
    <= gap t (Nat.iter n (smoothQ e t) c).
Proof.
  induction k as [| k IH]; [simpl; lra |].
  simpl. eapply Qle_trans; [apply gap_step_le | exact IH].
Qed.

(** After [n] updates the gap is at most the [1 + n e]-th part. *)
Lemma gap_harmonic (n : nat) (c : Q) :
  gap t (Nat.iter n (smoothQ e t) c) * (1 + inject_Z (Z.of_nat n) * e)
    <= gap t c.
Proof.
  induction n as [| n IH].
  - simpl. assert (E : gap t c * (1 + inject_Z 0 * e) == gap t c) by ring.
    rewrite E. lra.
  - simpl Nat.iter. set (x := Nat.iter n (smoothQ e t) c) in *.
    set (j := inject_Z (Z.of_nat n)) in *.
    assert (Hj : 0 <= j).
    { unfold j. change 0 with (inject_Z 0). rewrite <- Zle_Qle. lia. }
    assert (Ej : inject_Z (Z.of_nat (S n)) == j + 1).
    { unfold j. rewrite Nat2Z.inj_succ. unfold Z.succ.
      rewrite inject_Z_plus. reflexivity. }
    rewrite Ej, gap_step.
    pose proof (gap_nonneg x) as Hx.
    assert (0 <= gap t x * e * (j * e + e)).
    { apply Qmult_le_0_compat; [apply Qmult_le_0_compat; lra |].
      assert (0 <= j * e) by (apply Qmult_le_0_compat; lra). lra. }
    assert (E : (1 - e) * gap t x * (1 + (j + 1) * e)
                == gap t x * (1 + j * e) - gap t x * e * (j * e + e)) by ring.
    lra.
Qed.

(** So [m] updates with [1 <= m e] halve it. *)
Lemma gap_halves (m : nat) (c : Q) :
  1 <= inject_Z (Z.of_nat m) * e ->
  gap t (Nat.iter m (smoothQ e t) c) * 2 <= gap t c.
Proof.
  intros Hm. pose proof (gap_harmonic m c) as H.
  set (g := gap t (Nat.iter m (smoothQ e t) c)) in *.
  assert (Hg : 0 <= g) by apply gap_nonneg.
  assert (0 <= g * (inject_Z (Z.of_nat m) * e - 1))
    by (apply Qmult_le_0_compat; lra).
  assert (E : g * (1 + inject_Z (Z.of_nat m) * e)
              == g * 2 + g * (inject_Z (Z.of_nat m) * e - 1)) by ring.
  lra.
Qed.

(** And [k] rounds of [m] updates halve it [k] times. *)
Lemma gap_halves_iter (m k : nat) (c : Q) :
  1 <= inject_Z (Z.of_nat m) * e ->
  gap t (Nat.iter (m * k) (smoothQ e t) c) * inject_Z (2 ^ Z.of_nat k)
    <= gap t c.
Proof.
  intros Hm. induction k as [| k IH].
  - rewrite Nat.mul_0_r. simpl.
    assert (E : gap t c * inject_Z 1 == gap t c)
      by (change (inject_Z 1) with 1; ring).
    rewrite E. lra.
  - replace (m * S k)%nat with (m + m * k)%nat by lia.
    rewrite Nat.iter_add.
    set (x := Nat.iter (m * k) (smoothQ e t) c) in *.
    pose proof (gap_halves m x Hm) as H.
    rewrite Nat2Z.inj_succ, Z.pow_succ_r by lia.
    rewrite inject_Z_mult. change (inject_Z 2) with 2.
    set (P := inject_Z (2 ^ Z.of_nat k)) in *.
    assert (HP : 0 <= P).
    { unfold P. change 0 with (inject_Z 0). rewrite <- Zle_Qle.
      apply Z.pow_nonneg. lia. }
    set (g := gap t (Nat.iter m (smoothQ e t) x)) in *.
    assert (0 <= (gap t x - g * 2) * P) by (apply Qmult_le_0_compat; lra).
    assert (E : g * (2 * P) == gap t x * P - (gap t x - g * 2) * P) by ring.
    lra.
Qed.

(** [halving_ticks e] updates are enough to halve the gap. *)
Lemma halving_ticks_spec : 1 <= inject_Z (Z.of_nat (halving_ticks e)) * e.
Proof.
  unfold halving_ticks.
  assert (Hinv : 0 < / e) by (apply Qinv_lt_0_compat; lra).
  pose proof (Qle_ceiling (/ e)) as H.
  assert (Hc : (0 <= Qceiling (/ e))%Z).
  { rewrite Zle_Qle. change (inject_Z 0) with 0. lra. }
  rewrite Z2Nat.id by exact Hc.
  assert (E : / e * e == 1) by (field; lra).
  assert (0 <= (inject_Z (Qceiling (/ e)) - / e) * e)
    by (apply Qmult_le_0_compat; lra).
  assert (E' : inject_Z (Qceiling (/ e)) * e
               == / e * e + (inject_Z (Qceiling (/ e)) - / e) * e) by ring.
  lra.
Qed.

(** [halvings d eps] halvings bring a gap [d] below [eps]. *)
Lemma halvings_spec (d eps : Q) :
  0 <= d -> 0 < eps -> d < eps * inject_Z (2 ^ Z.of_nat (halvings d eps)).
Proof.
  intros Hd He. unfold halvings.
  set (a := (Qceiling (d / eps) + 1)%Z).
  assert (Hq : 0 <= d / eps).
  { apply Qle_shift_div_l; lra. }
  assert (Ha : (1 <= a)%Z).
  { unfold a. pose proof (Qceiling_resp_le _ _ Hq) as H.
    change (Qceiling 0) with 0%Z in H. lia. }
  assert (Hl : (0 <= Z.log2_up a)%Z) by apply Z.log2_up_nonneg.
  rewrite Z2Nat.id by exact Hl.
  assert (Hp : (a <= 2 ^ Z.log2_up a)%Z).
  { apply Z.log2_log2_up_spec. lia. }
  assert (Hlt : d / eps < inject_Z a).
  { unfold a. rewrite inject_Z_plus. change (inject_Z 1) with 1.
    pose proof (Qle_ceiling (d / eps)). lra. }
  rewrite Zle_Qle in Hp.
  assert (Hd' : d == d / eps * eps) by (field; lra).
  assert (0 < (inject_Z (2 ^ Z.log2_up a) - d / eps) * eps)
    by (apply Qmult_lt_0_compat; lra).
  assert (E : eps * inject_Z (2 ^ Z.log2_up a)
              == d / eps * eps + (inject_Z (2 ^ Z.log2_up a) - d / eps) * eps)
    by ring.
  lra.
Qed.

(** After [ticks_bound] updates the gap is below [eps], and stays there. *)
Lemma gap_below_eps (c eps : Q) (n : nat) :
  0 < eps -> (ticks_bound e (gap t c) eps <= n)%nat ->
  gap t (Nat.iter n (smoothQ e t) c) < eps.
Proof.
  intros He Hn. unfold ticks_bound in Hn.
  set (m := halving_ticks e) in *. set (k := halvings (gap t c) eps) in *.
  replace n with ((n - m * k) + m * k)%nat by lia.
  eapply Qle_lt_trans; [apply gap_antitone |].
  pose proof (gap_halves_iter m k c halving_ticks_spec) as H.
  pose proof (halvings_spec (gap t c) eps (gap_nonneg c) He) as H'.
  fold k in H'.
  set (g := gap t (Nat.iter (m * k) (smoothQ e t) c)) in *.
  set (P := inject_Z (2 ^ Z.of_nat k)) in *.
  assert (HP : 0 < P).
  { unfold P. change 0 with (inject_Z 0). rewrite <- Zlt_Qlt.
    apply Z.pow_pos_nonneg; lia. }
  destruct (Qlt_le_dec g eps) as [L | L]; [exact L | exfalso].
  assert (0 <= (g - eps) * P) by (apply Qmult_le_0_compat; lra).
  assert (E : g * P == eps * P + (g - eps) * P) by ring.
  lra.
Qed.

End Smoothing.

(** ** What each method leaves alone *)

(** Opens the body of [drawFrame] along its branches. *)
Ltac open_drawFrame :=
  unfold drawFrame;
  repeat match goal with
  | |- context [match images_at ?h ?i with _ => _ end] =>
      destruct (images_at h i)
  | |- context [if (?a =? ?b)%Z then _ else _] => destruct (a =? b)%Z
  | |- context [aspect_fit ?a ?b ?c] =>
      destruct (aspect_fit a b c) as [[[? ?] ?] ?]
  end.

Section Frames.

Lemma drawFrame_totalFrames (index : JS.num) (h : HeroCanvas) :
  totalFrames (drawFrame index h) = totalFrames h.
Proof. open_drawFrame; reflexivity. Qed.

Lemma drawFrame_images (index : JS.num) (h : HeroCanvas) :
  images (drawFrame index h) = images h.
Proof. open_drawFrame; reflexivity. Qed.

Lemma drawFrame_currentFrame (index : JS.num) (h : HeroCanvas) :
  currentFrame (drawFrame index h) = currentFrame h.
Proof. open_drawFrame; reflexivity. Qed.

Lemma drawFrame_targetFrame (index : JS.num) (h : HeroCanvas) :
  targetFrame (drawFrame index h) = targetFrame h.
Proof. open_drawFrame; reflexivity. Qed.

Lemma drawFrame_ease (index : JS.num) (h : HeroCanvas) :
  ease (drawFrame index h) = ease h.
Proof. open_drawFrame; reflexivity. Qed.

Lemma drawFrame_hero_classList (index : JS.num) (h : HeroCanvas) :
  hero_classList (drawFrame index h) = hero_classList h.
Proof. open_drawFrame; reflexivity. Qed.

Lemma images_at_drawFrame (index : JS.num) (h : HeroCanvas) (j : JS.num) :
  images_at (drawFrame index h) j = images_at h j.
Proof. unfold images_at. now rewrite drawFrame_images. Qed.

Lemma crossfadeIfEnding_totalFrames (h : HeroCanvas) :
  totalFrames (crossfadeIfEnding h) = totalFrames h.
Proof. unfold crossfadeIfEnding. now destruct (JS.ge _ _). Qed.

Lemma crossfadeIfEnding_images (h : HeroCanvas) :
  images (crossfadeIfEnding h) = images h.
Proof. unfold crossfadeIfEnding. now destruct (JS.ge _ _). Qed.

Lemma crossfadeIfEnding_currentFrame (h : HeroCanvas) :
  currentFrame (crossfadeIfEnding h) = currentFrame h.
Proof. unfold crossfadeIfEnding. now destruct (JS.ge _ _). Qed.

Lemma crossfadeIfEnding_targetFrame (h : HeroCanvas) :
  targetFrame (crossfadeIfEnding h) = targetFrame h.
Proof. unfold crossfadeIfEnding. now destruct (JS.ge _ _). Qed.

Lemma crossfadeIfEnding_ease (h : HeroCanvas) :
  ease (crossfadeIfEnding h) = ease h.
Proof. unfold crossfadeIfEnding. now destruct (JS.ge _ _). Qed.

Lemma loop_totalFrames (h : HeroCanvas) : totalFrames (loop h) = totalFrames h.
Proof.
  unfold loop. now rewrite crossfadeIfEnding_totalFrames, drawFrame_totalFrames.
Qed.

Lemma loop_images (h : HeroCanvas) : images (loop h) = images h.
Proof. unfold loop. now rewrite crossfadeIfEnding_images, drawFrame_images. Qed.

Lemma loop_targetFrame (h : HeroCanvas) : targetFrame (loop h) = targetFrame h.
Proof.
  unfold loop. now rewrite crossfadeIfEnding_targetFrame, drawFrame_targetFrame.
Qed.

Lemma loop_ease (h : HeroCanvas) : ease (loop h) = ease h.
Proof. unfold loop. now rewrite crossfadeIfEnding_ease, drawFrame_ease. Qed.

(** The position after a tick is the smoothing update of the one before. *)
Lemma loop_currentFrame (h : HeroCanvas) :
  currentFrame (loop h) = smooth (ease h) (targetFrame h) (currentFrame h).
Proof.
  unfold loop.
  now rewrite crossfadeIfEnding_currentFrame, drawFrame_currentFrame.
Qed.

Lemma resize_totalFrames (w : Window) (h : HeroCanvas) :
  totalFrames (resize w h) = totalFrames h.
Proof.
  unfold resize. destruct (images_at _ _); [| reflexivity].
  now rewrite drawFrame_totalFrames.
Qed.

Lemma resize_images (w : Window) (h : HeroCanvas) :
  images (resize w h) = images h.
Proof.
  unfold resize. destruct (images_at _ _); [| reflexivity].
  now rewrite drawFrame_images.
Qed.

Lemma resize_currentFrame (w : Window) (h : HeroCanvas) :
  currentFrame (resize w h) = currentFrame h.
Proof.
  unfold resize. destruct (images_at _ _); [| reflexivity].
  now rewrite drawFrame_currentFrame.
Qed.

Lemma resize_targetFrame (w : Window) (h : HeroCanvas) :
  targetFrame (resize w h) = targetFrame h.
Proof.
  unfold resize. destruct (images_at _ _); [| reflexivity].
  now rewrite drawFrame_targetFrame.
Qed.

Lemma resize_ease (w : Window) (h : HeroCanvas) : ease (resize w h) = ease h.
Proof.
  unfold resize. destruct (images_at _ _); [| reflexivity].
  now rewrite drawFrame_ease.
Qed.

Lemma resize_hero_classList (w : Window) (h : HeroCanvas) :
  hero_classList (resize w h) = hero_classList h.
Proof.
  unfold resize. destruct (images_at _ _); [| reflexivity].
  now rewrite drawFrame_hero_classList.
Qed.

End Frames.

(** [n] ticks without a scroll event in between smooth [n] times. *)
Lemma loop_iter_currentFrame (n : nat) (h : HeroCanvas) :
  currentFrame (Nat.iter n loop h) =
    smooth_iter (ease h) (targetFrame h) n (currentFrame h) /\
  targetFrame (Nat.iter n loop h) = targetFrame h /\
  ease (Nat.iter n loop h) = ease h.
Proof.
  induction n as [| n (IH1 & IH2 & IH3)]; [now simpl |].
  simpl Nat.iter. rewrite loop_currentFrame, loop_targetFrame, loop_ease.
  rewrite IH1, IH2, IH3. now unfold smooth_iter.
Qed.

(** ** The page: what the handlers of one kind leave to the others *)

Section PageFrames.

Lemma same_scrub_refl (h : HeroCanvas) : same_scrub h h.
Proof. now unfold same_scrub. Qed.

Lemma same_scrub_trans (h1 h2 h3 : HeroCanvas) :
  same_scrub h1 h2 -> same_scrub h2 h3 -> same_scrub h1 h3.
Proof. unfold same_scrub. intuition congruence. Qed.

Lemma drawFrame_same_scrub (index : JS.num) (h : HeroCanvas) :
  same_scrub (drawFrame index h) h.
Proof.
  unfold same_scrub.
  now rewrite drawFrame_totalFrames, drawFrame_ease, drawFrame_currentFrame,
    drawFrame_targetFrame, drawFrame_hero_classList.
Qed.

Lemma resize_same_scrub (w : Window) (h : HeroCanvas) :
  same_scrub (resize w h) h.
Proof.
  unfold same_scrub.
  now rewrite resize_totalFrames, resize_ease, resize_currentFrame,
    resize_targetFrame, resize_hero_classList.
Qed.

(** The hero after [Promise.all] has had a look: untouched, or drawn once. *)
Lemma Promise_all_settle_hero (p : Page) :
  hero (Promise_all_settle p) = hero p \/
  hero (Promise_all_settle p) =
    set_opacity (JS.of_Z 1) (drawFrame (JS.of_Z 0) (hero p)).
Proof.
  unfold Promise_all_settle.
  destruct (all_promise p); auto.
  destruct (existsb _ _); auto.
  destruct (forallb _ _); auto.
Qed.

Lemma Promise_all_settle_same_scrub (p : Page) :
  same_scrub (hero (Promise_all_settle p)) (hero p).
Proof.
  destruct (Promise_all_settle_hero p) as [E | E]; rewrite E.
  - apply same_scrub_refl.
  - apply (same_scrub_trans _ (drawFrame (JS.of_Z 0) (hero p)));
      [now unfold same_scrub | apply drawFrame_same_scrub].
Qed.

Lemma Promise_all_settle_images (p : Page) :
  images (hero (Promise_all_settle p)) = images (hero p).
Proof.
  destruct (Promise_all_settle_hero p) as [E | E]; rewrite E; [reflexivity |].
  simpl. apply drawFrame_images.
Qed.

Lemma Promise_all_settle_promises (p : Page) :
  frame_promises (Promise_all_settle p) = frame_promises p.
Proof.
  unfold Promise_all_settle.
  destruct (all_promise p); auto.
  destruct (existsb _ _); auto.
  destruct (forallb _ _); auto.
Qed.

Lemma resolve_frame_same_scrub (i : nat) (p : Page) :
  same_scrub (hero (resolve_frame i p)) (hero p).
Proof.
  unfold resolve_frame.
  destruct (frame_promises p !! i) as [[| |] |]; try apply same_scrub_refl.
  match goal with
  | |- same_scrub (hero (Promise_all_settle ?q)) _ =>
      exact (Promise_all_settle_same_scrub q)
  end.
Qed.

Lemma resolve_frame_images (i : nat) (p : Page) :
  images (hero (resolve_frame i p)) = images (hero p).
Proof.
  unfold resolve_frame.
  destruct (frame_promises p !! i) as [[| |] |]; try reflexivity.
  match goal with
  | |- images (hero (Promise_all_settle ?q)) = _ =>
      exact (Promise_all_settle_images q)
  end.
Qed.

(** Every handler but [onScroll], [loop] and the class-list observers leaves
    the scrub state and the signal as they are. *)
Lemma handle_same_scrub (p : Page) (ev : event) :
  match ev with
  | Load _ _ | Error _ | Resize _ => same_scrub (hero (handle p ev)) (hero p)
  | _ => True
  end.
Proof.
  destruct ev; simpl; try exact I.
  - case_bool_decide; [| apply same_scrub_refl].
    unfold img_onload.
    eapply same_scrub_trans; [apply resolve_frame_same_scrub |].
    now unfold same_scrub.
  - case_bool_decide; [| apply same_scrub_refl].
    unfold img_onerror.
    eapply same_scrub_trans; [apply resolve_frame_same_scrub |].
    now unfold same_scrub.
  - apply resize_same_scrub.
Qed.

Lemma handle_totalFrames (p : Page) (ev : event) :
  totalFrames (hero (handle p ev)) = totalFrames (hero p).
Proof.
  destruct ev.
  - pose proof (handle_same_scrub p (Load i img)) as H. apply H.
  - pose proof (handle_same_scrub p (Error i)) as H. apply H.
  - simpl. now destruct (scroll_bound p).
  - simpl. destruct (scroll_bound p); [| reflexivity]. simpl.
    apply loop_totalFrames.
  - pose proof (handle_same_scrub p (Resize w)) as H. apply H.
  - reflexivity.
  - reflexivity.
Qed.

Lemma handle_ease (p : Page) (ev : event) :
  ease (hero (handle p ev)) = ease (hero p).
Proof.
  destruct ev.
  - pose proof (handle_same_scrub p (Load i img)) as H. apply H.
  - pose proof (handle_same_scrub p (Error i)) as H. apply H.
  - simpl. now destruct (scroll_bound p).
  - simpl. destruct (scroll_bound p); [| reflexivity]. simpl.
    apply loop_ease.
  - pose proof (handle_same_scrub p (Resize w)) as H. apply H.
  - reflexivity.
  - reflexivity.
Qed.

End PageFrames.

(** ** The end-of-sequence signal *)

Section Signal.

Lemma classList_add_in (c : string) (l : list string) : c ∈ classList_add c l.
Proof.
  unfold classList_add. case_bool_decide as H; [exact H |].
  apply elem_of_app. right. now apply list_elem_of_singleton.
Qed.

Lemma classList_add_keeps (c x : string) (l : list string) :
  x ∈ l -> x ∈ classList_add c l.
Proof.
  intros H. unfold classList_add. case_bool_decide; [exact H |].
  apply elem_of_app. now left.
Qed.

Lemma classList_add_idem (c : string) (l : list string) :
  classList_add c (classList_add c l) = classList_add c l.
Proof.
  unfold classList_add at 1.
  rewrite bool_decide_eq_true_2; [reflexivity | apply classList_add_in].
Qed.

Lemma classList_remove_keeps (c x : string) (l : list string) :
  x <> c -> x ∈ l -> x ∈ classList_remove c l.
Proof.
  intros Hne H. unfold classList_remove. now apply list_elem_of_filter.
Qed.

(** A tick that ends at or beyond [N - 2] sets the signal. *)
Lemma loop_signals (h : HeroCanvas) :
  JS.ge (currentFrame (loop h)) (JS.of_Z (totalFrames h - 2)) = true ->
  "visible" ∈ hero_classList (loop h).
Proof.
  rewrite loop_currentFrame. unfold loop.
  set (h1 := set_currentFrame _ h).
  set (h2 := drawFrame _ h1).
  assert (E1 : currentFrame h2
               = smooth (ease h) (targetFrame h) (currentFrame h))
    by (unfold h2; now rewrite drawFrame_currentFrame).
  assert (E2 : totalFrames h2 = totalFrames h)
    by (unfold h2; now rewrite drawFrame_totalFrames).
  intros H. unfold crossfadeIfEnding. rewrite E1, E2, H. simpl.
  apply classList_add_in.
Qed.

Lemma crossfadeIfEnding_keeps (x : string) (h : HeroCanvas) :
  x ∈ hero_classList h -> x ∈ hero_classList (crossfadeIfEnding h).
Proof.
  intros H. unfold crossfadeIfEnding. destruct (JS.ge _ _); [| exact H].
  simpl. now apply classList_add_keeps.
Qed.

Lemma crossfadeIfEnding_idem (h : HeroCanvas) :
  crossfadeIfEnding (crossfadeIfEnding h) = crossfadeIfEnding h.
Proof.
  unfold crossfadeIfEnding at 2.
  destruct (JS.ge (currentFrame h) _) eqn:E.
  - unfold crossfadeIfEnding, set_hero_classList.
    cbn [currentFrame totalFrames hero_classList].
    now rewrite E, classList_add_idem.
  - unfold crossfadeIfEnding. now rewrite E.
Qed.

(** No handler of the script removes the signal. *)
Lemma handle_keeps_visible (p : Page) (ev : event) :
  "visible" ∈ hero_classList (hero p) ->
  "visible" ∈ hero_classList (hero (handle p ev)).
Proof.
  intros H. pose proof (handle_same_scrub p ev) as S.
  destruct ev; try (destruct S as (_ & _ & _ & _ & ->); exact H); simpl.
  - now destruct (scroll_bound p).
  - destruct (scroll_bound p); [| exact H]. simpl. unfold loop.
    apply crossfadeIfEnding_keeps. now rewrite drawFrame_hero_classList.
  - now apply classList_add_keeps.
  - destruct active.
    + apply classList_add_keeps. now apply classList_remove_keeps.
    + now apply classList_remove_keeps.
Qed.

Lemma run_keeps_visible (evs : list event) (p : Page) :
  "visible" ∈ hero_classList (hero p) ->
  "visible" ∈ hero_classList (hero (run p evs)).
Proof.
  revert p. induction evs as [| ev evs IH]; intros p H; [exact H |].
  simpl. apply IH. now apply handle_keeps_visible.
Qed.

End Signal.

(** ** The scrub state stays among the frames, [0 / 0] apart *)

Section ScrubInvariant.

Lemma smooth_within (hi e : Q) (t c : JS.num) :
  0 < e < 1 -> JS.within 0 hi t -> JS.within 0 hi c ->
  JS.within 0 hi (smooth e t c).
Proof.
  intros He Ht Hc. destruct t as [| | | t], c as [| | | c]; try contradiction.
  rewrite smooth_Fin. simpl in *.
  destruct (Qlt_le_dec t c) as [L | L].
  - pose proof (smoothQ_above e t He c) as H. lra.
  - pose proof (smoothQ_below e t He c L) as H. lra.
Qed.

Lemma same_scrub_invariant (h h' : HeroCanvas) :
  same_scrub h h' -> scrub_invariant h' -> scrub_invariant h.
Proof.
  intros (E1 & _ & E3 & E4 & _). unfold scrub_invariant.
  now rewrite E1, E3, E4.
Qed.

Lemma onScroll_invariant (w : Window) (h : HeroCanvas) :
  (1 <= totalFrames h)%Z -> scrollFraction w <> JS.NaN ->
  scrub_invariant h -> scrub_invariant (onScroll w h).
Proof.
  intros HN Hw [_ Hc]. split; [| exact Hc].
  destruct (scrollFraction_cases w) as [E | (f & E & Hf)]; [contradiction |].
  unfold onScroll. cbn [targetFrame totalFrames set_targetFrame]. rewrite E.
  now apply target_of_fraction_range.
Qed.

Lemma loop_invariant (h : HeroCanvas) :
  0 < ease h < 1 -> scrub_invariant h -> scrub_invariant (loop h).
Proof.
  intros He [Ht Hc]. unfold scrub_invariant.
  rewrite loop_totalFrames, loop_targetFrame, loop_currentFrame.
  split; [exact Ht |]. now apply smooth_within.
Qed.

(** Every handler keeps the invariant, unless it is [onScroll] reading
    [0 / 0]. *)
Lemma handle_invariant (p : Page) (ev : event) :
  (1 <= totalFrames (hero p))%Z -> 0 < ease (hero p) < 1 ->
  (forall w, ev = Scroll w -> scrollFraction w <> JS.NaN) ->
  scrub_invariant (hero p) -> scrub_invariant (hero (handle p ev)).
Proof.
  intros HN He Hw Inv. pose proof (handle_same_scrub p ev) as S.
  destruct ev; try (exact (same_scrub_invariant _ _ S Inv)); simpl.
  - destruct (scroll_bound p); [| exact Inv]. simpl.
    apply onScroll_invariant; auto.
  - destruct (scroll_bound p); [| exact Inv]. simpl.
    now apply loop_invariant.
  - exact Inv.
  - exact Inv.
Qed.

Lemma new_HeroCanvas_scrub (N : Z) (w : Window) (bw bh : JS.num) (cw ch : Z)
    (classes : list string) :
  same_scrub (hero (new_HeroCanvas N w bw bh cw ch classes))
    (constructor N bw bh cw ch classes).
Proof.
  unfold new_HeroCanvas.
  eapply same_scrub_trans.
  - match goal with
    | |- same_scrub (hero (Promise_all_settle ?q)) _ =>
        exact (Promise_all_settle_same_scrub q)
    end.
  - apply resize_same_scrub.
Qed.

(** The invariant holds of a new canvas with at least one frame. *)
Lemma new_HeroCanvas_invariant (N : Z) (w : Window) (bw bh : JS.num)
    (cw ch : Z) (classes : list string) :
  (1 <= N)%Z ->
  scrub_invariant (hero (new_HeroCanvas N w bw bh cw ch classes)).
Proof.
  intros HN. eapply same_scrub_invariant; [apply new_HeroCanvas_scrub |].
  unfold scrub_invariant. simpl.
  assert (0 <= inject_Z (N - 1)).
  { change 0 with (inject_Z 0). rewrite <- Zle_Qle. lia. }
  change (inject_Z 0) with 0. lra.
Qed.

(** And of every run in which no scroll event reads [0 / 0]. *)
Lemma run_invariant (evs : list event) (p : Page) :
  (1 <= totalFrames (hero p))%Z -> 0 < ease (hero p) < 1 ->
  (forall w, Scroll w ∈ evs -> scrollFraction w <> JS.NaN) ->
  scrub_invariant (hero p) -> scrub_invariant (hero (run p evs)).
Proof.
  revert p.
  induction evs as [| ev evs IH]; intros p HN He Hw Inv; [exact Inv |].
  simpl. apply IH.
  - now rewrite handle_totalFrames.
  - now rewrite handle_ease.
  - intros w Hin. apply Hw. now right.
  - apply handle_invariant; auto. intros w ->. apply Hw. now left.
Qed.

End ScrubInvariant.

(** ** Drawing a frame *)

Section Drawing.

Lemma div_Fin_pos (a b : Q) :
  0 < b -> JS.div (JS.Fin a) (JS.Fin b) = JS.Fin (a / b).
Proof.
  intros H. unfold JS.div. apply sgn_Gt in H. now rewrite H.
Qed.

Lemma inject_Z_pos (z : Z) : (0 < z)%Z -> 0 < inject_Z z.
Proof. intros H. change 0 with (inject_Z 0). now rewrite <- Zlt_Qlt. Qed.

Lemma Qdiv_pos (a b : Q) : 0 < a -> 0 < b -> 0 < a / b.
Proof. intros Ha Hb. apply Qlt_shift_div_l; lra. Qed.

(** A slot that cannot be drawn makes [drawFrame] return at once. *)
Lemma drawFrame_unavailable (index : JS.num) (h : HeroCanvas) :
  slot_unavailable (images_at h index) -> drawFrame index h = h.
Proof.
  unfold drawFrame, slot_unavailable.
  destruct (images_at h index) as [img |]; [| reflexivity].
  intros ->. reflexivity.
Qed.

(** Otherwise it clears, sets the opacity and draws the image where
    [aspect_fit] places it. *)
Lemma drawFrame_available (index : JS.num) (h : HeroCanvas) (img : image) :
  images_at h index = Some img -> img_width img <> 0%Z ->
  style_opacity (drawFrame index h) = Some (fade_alpha (totalFrames h) index) /\
  let '(offsetX, offsetY, drawWidth, drawHeight) :=
    aspect_fit (clientWidth h) (clientHeight h) img in
  ctx_calls (drawFrame index h) =
    ctx_calls h ++
      [ClearRect (JS.of_Z 0) (JS.of_Z 0)
         (JS.of_Z (clientWidth h)) (JS.of_Z (clientHeight h));
       Save;
       DrawImage img offsetX offsetY drawWidth drawHeight;
       Restore].
Proof.
  intros E Hw. unfold drawFrame. rewrite E.
  apply Z.eqb_neq in Hw. rewrite Hw.
  cbn [clientWidth clientHeight ctx_call totalFrames].
  destruct (aspect_fit (clientWidth h) (clientHeight h) img)
    as [[[ox oy] dw] dh].
  split; [reflexivity |].
  cbn [ctx_calls ctx_call set_opacity]. now rewrite <- !app_assoc.
Qed.

(** The opacity ramp over the frames of the sequence. *)
Lemma fade_alpha_frames (N i : Z) :
  (0 <= i <= N - 1)%Z ->
  exists a, fade_alpha N (JS.of_Z i) = JS.Fin a /\
    ((N - i <= 8)%Z -> a == clampQ (inject_Z (N - i) / 8) 0 1) /\
    ((8 < N - i)%Z -> a == 1).
Proof.
  intros Hi. unfold fade_alpha, fadeThreshold, JS.of_Z.
  cbn [JS.sub JS.neg JS.add JS.le].
  assert (E : inject_Z N + - inject_Z i == inject_Z (N - i)).
  { unfold Z.sub. rewrite inject_Z_plus, inject_Z_opp. reflexivity. }
  destruct (Qle_bool (inject_Z N + - inject_Z i) (inject_Z 8)) eqn:L.
  - apply Qle_bool_true in L. rewrite E, <- Zle_Qle in L.
    rewrite div_Fin_pos by reflexivity. cbn [JS.Math_max].
    eexists. split; [reflexivity |]. split; [| lia].
    intros _. rewrite E. change (inject_Z 0) with 0.
    change (inject_Z 8) with 8.
    assert (Hlo : 1 <= inject_Z (N - i)).
    { change 1 with (inject_Z 1). rewrite <- Zle_Qle. lia. }
    assert (Hhi : inject_Z (N - i) <= 8).
    { change 8 with (inject_Z 8). rewrite <- Zle_Qle. lia. }
    assert (H1 : 1 # 8 <= inject_Z (N - i) / 8).
    { apply Qle_shift_div_l; [reflexivity | lra]. }
    assert (H2 : inject_Z (N - i) / 8 <= 1).
    { apply Qle_shift_div_r; [reflexivity | lra]. }
    rewrite clampQ_id by lra.
    apply Q.max_r. lra.
  - apply Qle_bool_false in L. rewrite E, <- Zlt_Qlt in L.
    eexists. split; [reflexivity |]. split; [lia | reflexivity].
Qed.

(** The placement for a canvas and an image of positive dimensions. *)
Lemma aspect_fit_positive (cw ch iw ih : Z) :
  (0 < cw)%Z -> (0 < ch)%Z -> (0 < iw)%Z -> (0 < ih)%Z ->
  let canvasRatio := inject_Z cw / inject_Z ch in
  let imgRatio := inject_Z iw / inject_Z ih in
  exists offsetX offsetY drawWidth drawHeight : Q,
    aspect_fit cw ch (Image iw ih) =
      (JS.Fin offsetX, JS.Fin offsetY, JS.Fin drawWidth, JS.Fin drawHeight) /\
    (imgRatio < canvasRatio ->
       drawWidth == inject_Z cw /\ drawHeight == drawWidth / imgRatio /\
       offsetX == 0 /\ offsetY == (inject_Z ch - drawHeight) / 2) /\
    (canvasRatio <= imgRatio ->
       drawHeight == inject_Z ch /\ drawWidth == drawHeight * imgRatio /\
       offsetY == 0 /\ offsetX == (inject_Z cw - drawWidth) / 2).
Proof.
  intros Hcw Hch Hiw Hih canvasRatio imgRatio.
  apply inject_Z_pos in Hcw, Hch, Hiw, Hih.
  assert (Hir : 0 < imgRatio) by now apply Qdiv_pos.
  unfold aspect_fit, JS.of_Z. cbn [img_width img_height].
  rewrite !div_Fin_pos by assumption.
  fold canvasRatio imgRatio. cbn [JS.gt JS.le].
  destruct (Qle_bool canvasRatio imgRatio) eqn:L; cbn [negb].
  - apply Qle_bool_true in L. cbn [JS.mul JS.sub JS.neg JS.add].
    rewrite div_Fin_pos by reflexivity.
    do 4 eexists. split; [reflexivity |]. split; [lra |]. intros _.
    repeat split; reflexivity.
  - apply Qle_bool_false in L. cbn [JS.sub JS.neg JS.add].
    rewrite div_Fin_pos by reflexivity.
    do 4 eexists. split; [reflexivity |]. split; [| lra]. intros _.
    repeat split; reflexivity.
Qed.

End Drawing.

(** ** Preloading *)

Section Preload.

Lemma forallb_fulfilled (l : list promise_state) :
  forallb is_fulfilled l = true <->
  (forall j s, l !! j = Some s -> s = Fulfilled).
Proof.
  induction l as [| x l IH]; simpl.
  - split; [intros _ j s H; discriminate | reflexivity].
  - rewrite andb_true_iff, IH. split.
    + intros [Hx Hl] [| j] s H; simpl in H.
      * injection H as <-. now destruct x.
      * eauto.
    + intros H. split.
      * now rewrite (H 0%nat x eq_refl).
      * intros j s Hj. apply (H (S j)). exact Hj.
Qed.

Lemma existsb_rejected (l : list promise_state) :
  (forall j s, l !! j = Some s -> s <> Rejected) ->
  existsb (λ s, match s with Rejected => true | _ => false end) l = false.
Proof.
  induction l as [| x l IH]; intros H; [reflexivity |].
  simpl. rewrite IH by (intros j s Hj; apply (H (S j)); exact Hj).
  specialize (H 0%nat x eq_refl). now destruct x.
Qed.

Lemma promises_inv_ext (n : nat) (seen seen' : nat -> bool) (p : Page) :
  (forall j, (j < n)%nat -> seen j = seen' j) ->
  promises_inv n seen p -> promises_inv n seen' p.
Proof.
  intros E (H1 & H2 & H3). split; [exact H1 |]. split; [| exact H3].
  intros j Hj. rewrite <- (E j Hj). now apply H2.
Qed.

Lemma promises_inv_set_hero (n : nat) (seen : nat -> bool) (h : HeroCanvas)
    (p : Page) :
  promises_inv n seen p -> promises_inv n seen (set_hero h p).
Proof. exact id. Qed.

(** [Promise.all] looking at promises none of which is rejected, before it
    has settled itself. *)
Lemma Promise_all_settle_promises_inv (n : nat) (seen : nat -> bool)
    (p : Page) :
  length (frame_promises p) = n ->
  (forall j, (j < n)%nat ->
     frame_promises p !! j = Some (if seen j then Fulfilled else Pending)) ->
  all_promise p = Pending -> then_runs p = 0%nat -> scroll_bound p = false ->
  promises_inv n seen (Promise_all_settle p).
Proof.
  intros HL HP HA HT HB.
  assert (Hrej : existsb (λ s, match s with Rejected => true | _ => false end)
                   (frame_promises p) = false).
  { apply existsb_rejected. intros j s Hj.
    assert (Hjn : (j < n)%nat).
    { rewrite <- HL. apply lookup_lt_is_Some. eauto. }
    rewrite (HP j Hjn) in Hj. injection Hj as <-. now destruct (seen j). }
  unfold Promise_all_settle, promises_inv. rewrite HA, Hrej.
  destruct (forallb is_fulfilled (frame_promises p)) eqn:F;
    cbn [init_then frame_promises all_promise then_runs scroll_bound];
    rewrite F, ?HT; repeat split; auto.
Qed.

(** Resolving the promise of a frame keeps the promises in step. *)
Lemma resolve_frame_promises_inv (n : nat) (seen : nat -> bool) (i : nat)
    (p : Page) :
  (i < n)%nat -> promises_inv n seen p ->
  promises_inv n (fun j => bool_decide (j = i) || seen j) (resolve_frame i p).
Proof.
  intros Hi (HL & HP & HA & HT & HB). unfold resolve_frame.
  rewrite (HP i Hi). destruct (seen i) eqn:Si.
  - (* settled before: nothing happens *)
    split; [exact HL |]. split; [| tauto].
    intros j Hj. rewrite (HP j Hj).
    case_bool_decide; subst; simpl; [| reflexivity].
    now rewrite Si.
  - (* pending: settle it and let Promise.all look *)
    set (l' := <[i := Fulfilled]> (frame_promises p)).
    assert (HL' : length l' = n) by (unfold l'; now rewrite length_insert).
    assert (HP' : forall j, (j < n)%nat ->
              l' !! j = Some (if bool_decide (j = i) || seen j
                              then Fulfilled else Pending)).
    { intros j Hj. unfold l'. case_bool_decide as E; simpl.
      - subst j. apply list_lookup_insert_eq. lia.
      - rewrite list_lookup_insert_ne by congruence. now apply HP. }
    assert (Hold : forallb is_fulfilled (frame_promises p) = false).
    { destruct (forallb is_fulfilled (frame_promises p)) eqn:F; [| reflexivity].
      rewrite forallb_fulfilled in F. specialize (F i _ (HP i Hi)).
      rewrite Si in F. discriminate. }
    rewrite Hold in HA, HT, HB.
    now apply Promise_all_settle_promises_inv.
Qed.

Lemma fetches_snoc (evs : list event) (ev : event) :
  fetches (evs ++ [ev]) =
    fetches evs ++ match fetch_index ev with Some i => [i] | None => [] end.
Proof.
  unfold fetches. rewrite omap_app. simpl.
  now destruct (fetch_index ev).
Qed.

Lemma last_fetch_snoc (evs : list event) (ev : event) (j : nat) :
  last_fetch (evs ++ [ev]) j =
    if bool_decide (fetch_index ev = Some j) then stored_image ev
    else last_fetch evs j.
Proof.
  induction evs as [| e evs IH]; simpl.
  - now case_bool_decide.
  - rewrite IH. case_bool_decide as E; [| reflexivity].
    destruct ev; simpl in *; try discriminate; reflexivity.
Qed.

(** Events that are not fetch events leave the promises and the cache. *)
Lemma handle_other (p : Page) (ev : event) :
  fetch_index ev = None ->
  frame_promises (handle p ev) = frame_promises p /\
  all_promise (handle p ev) = all_promise p /\
  then_runs (handle p ev) = then_runs p /\
  scroll_bound (handle p ev) = scroll_bound p /\
  images (hero (handle p ev)) = images (hero p).
Proof.
  destruct ev; simpl; try discriminate; intros _.
  - destruct (scroll_bound p) eqn:E; simpl; rewrite ?E; tauto.
  - destruct (scroll_bound p) eqn:E; simpl; rewrite ?E, ?loop_images; tauto.
  - rewrite resize_images. tauto.
  - tauto.
  - tauto.
Qed.

(** A fetch event of frame [i] stores [x] in slot [i] and resolves its
    promise. *)
Lemma fetch_preload_inv (n : nat) (evs : list event) (ev : event) (i : nat)
    (x : image) (h' : HeroCanvas) (p : Page) :
  fetch_index ev = Some i -> stored_image ev = Some x ->
  images h' = <[i := Some x]> (images (hero p)) ->
  (i < n)%nat -> preload_inv n evs p ->
  preload_inv n (evs ++ [ev]) (resolve_frame i (set_hero h' p)).
Proof.
  intros Hidx Hst Himg Hi (HP & HL & HI). split; [| split].
  - eapply promises_inv_ext;
      [| apply resolve_frame_promises_inv;
         [exact Hi | apply promises_inv_set_hero; exact HP]].
    intros j Hj. cbn beta. rewrite fetches_snoc, Hidx.
    case_bool_decide as E1; simpl.
    + subst j. symmetry. apply bool_decide_eq_true.
      apply elem_of_app. right. now apply list_elem_of_singleton.
    + apply bool_decide_ext. rewrite elem_of_app, list_elem_of_singleton. tauto.
  - rewrite resolve_frame_images. cbn [hero set_hero].
    now rewrite Himg, length_insert.
  - intros j Hj. rewrite resolve_frame_images. cbn [hero set_hero].
    rewrite Himg, last_fetch_snoc, Hidx.
    case_bool_decide as E.
    + injection E as <-. rewrite Hst. apply list_lookup_insert_eq. lia.
    + rewrite list_lookup_insert_ne by congruence. now apply HI.
Qed.

(** A fetch event of a frame the canvas does not have changes nothing that
    concerns the frames it has. *)
Lemma stray_preload_inv (n : nat) (evs : list event) (ev : event) (i : nat)
    (p : Page) :
  fetch_index ev = Some i -> ~ (i < n)%nat ->
  preload_inv n evs p -> preload_inv n (evs ++ [ev]) p.
Proof.
  intros Hidx Hi (HP & HL & HI). split; [| split; [exact HL |]].
  - eapply promises_inv_ext; [| exact HP].
    intros j Hj. cbn beta. rewrite fetches_snoc, Hidx.
    apply bool_decide_ext. rewrite elem_of_app, list_elem_of_singleton.
    split; [tauto | intros [? | ->]; [assumption | lia]].
  - intros j Hj. rewrite last_fetch_snoc, Hidx.
    case_bool_decide as E; [injection E as <-; lia | now apply HI].
Qed.

(** One event keeps the page in step with the events so far. *)
Lemma handle_preload_inv (n : nat) (evs : list event) (ev : event) (p : Page) :
  preload_inv n evs p -> preload_inv n (evs ++ [ev]) (handle p ev).
Proof.
  intros Inv. pose proof Inv as ((HLp & _) & _).
  destruct (fetch_index ev) as [i |] eqn:Hidx.
  - destruct ev; simpl in Hidx; try discriminate; injection Hidx as ->;
      simpl; rewrite HLp; case_bool_decide as Hi;
      try (now apply (stray_preload_inv n evs _ i)).
    + now apply (fetch_preload_inv n evs (Load i img) i img).
    + now apply (fetch_preload_inv n evs (Error i) i broken_image).
  - destruct (handle_other p ev Hidx) as (E1 & E2 & E3 & E4 & E5).
    destruct Inv as ((H1 & H2 & H3 & H4 & H5) & HL & HI).
    unfold preload_inv, promises_inv.
    rewrite E1, E2, E3, E4, E5, fetches_snoc, Hidx, app_nil_r.
    repeat split; auto.
    intros j Hj. rewrite last_fetch_snoc, Hidx.
    rewrite bool_decide_eq_false_2 by discriminate. now apply HI.
Qed.

(** A new canvas is in step with the empty sequence of events. *)
Lemma new_HeroCanvas_preload_inv (N : Z) (w : Window) (bw bh : JS.num)
    (cw ch : Z) (classes : list string) :
  preload_inv (Z.to_nat N) [] (new_HeroCanvas N w bw bh cw ch classes).
Proof.
  unfold new_HeroCanvas. set (n := Z.to_nat N).
  set (p0 := Build_Page _ _ _ _ _).
  assert (HI : images (hero (Promise_all_settle p0)) = replicate n None).
  { rewrite Promise_all_settle_images. unfold p0. cbn [hero].
    now rewrite resize_images. }
  split; [| split].
  - apply Promise_all_settle_promises_inv; try reflexivity.
    + apply length_replicate.
    + intros j Hj. unfold p0. cbn [frame_promises].
      now rewrite lookup_replicate_2.
  - rewrite HI. apply length_replicate.
  - intros j Hj. rewrite HI. now rewrite lookup_replicate_2.
Qed.

(** So is every run of it. *)
Lemma run_preload_inv (N : Z) (w : Window) (bw bh : JS.num) (cw ch : Z)
    (classes : list string) (evs : list event) :
  preload_inv (Z.to_nat N) evs
    (run (new_HeroCanvas N w bw bh cw ch classes) evs).
Proof.
  induction evs as [| ev evs IH] using rev_ind.
  - apply new_HeroCanvas_preload_inv.
  - unfold run. rewrite foldl_snoc. now apply handle_preload_inv.
Qed.

End Preload.

(** ** What a settled cache holds *)

Section Cache.

Lemma last_fetch_None (evs : list event) (i : nat) :
  i ∉ fetches evs -> last_fetch evs i = None.
Proof.
  induction evs as [| e evs IH]; intros H; [reflexivity |].
  simpl. unfold fetches in *. simpl in H.
  destruct (fetch_index e) as [k |] eqn:E.
  - apply not_elem_of_cons in H as [Hne Hin]. rewrite (IH Hin).
    rewrite bool_decide_eq_false_2; [reflexivity | congruence].
  - rewrite (IH H). now rewrite bool_decide_eq_false_2.
Qed.

(** When the fetch of a frame comes back once, the slot holds what that
    event stored. *)
Lemma last_fetch_unique (evs : list event) (ev : event) (i : nat) :
  NoDup (fetches evs) -> ev ∈ evs -> fetch_index ev = Some i ->
  last_fetch evs i = stored_image ev.
Proof.
  induction evs as [| e evs IH]; intros ND Hin Hidx.
  - now apply elem_of_nil in Hin.
  - simpl. unfold fetches in ND. simpl in ND.
    apply elem_of_cons in Hin as [-> | Hin].
    + rewrite Hidx in ND. apply NoDup_cons in ND as [Hni _].
      rewrite (last_fetch_None evs i Hni).
      now rewrite bool_decide_eq_true_2.
    + assert (ND' : NoDup (fetches evs)).
      { unfold fetches. destruct (fetch_index e); [| exact ND].
        now apply NoDup_cons in ND as [_ ?]. }
      rewrite (IH ND' Hin Hidx).
      destruct ev; simpl in Hidx; try discriminate; reflexivity.
Qed.

Lemma fetched_event (evs : list event) (i : nat) :
  i ∈ fetches evs <->
  (exists img, Load i img ∈ evs) \/ Error i ∈ evs.
Proof.
  unfold fetches. rewrite list_elem_of_omap. split.
  - intros (ev & Hin & Hidx).
    destruct ev; simpl in Hidx; try discriminate; injection Hidx as ->; eauto.
  - intros [[img H] | H]; eexists; (split; [exact H | reflexivity]).
Qed.

End Cache.

(** * The claims *)

(** ** C1: the target assigned by the scroll handler *)




(** ** C2: a document that does not scroll *)

(** C2 fails on the code: at the top of a document exactly as tall as the
    viewport the handler divides 0 by 0, [Math.min] and [Math.max] pass the
    [NaN] on, and so does the target. *)
Theorem C2_onScroll_zero_over_zero :
  scrollTop (window_at 0 900) = JS.of_Z 0 /\
  maxScrollTop (window_at 0 900) = JS.of_Z 0 /\
  scrollFraction (window_at 0 900) = JS.NaN /\
  targetFrame (onScroll (window_at 0 900) (hero page_loaded)) = JS.NaN /\
  ~ JS.within 0 (inject_Z (248 - 1))
      (targetFrame (onScroll (window_at 0 900) (hero page_loaded))).
Proof.
  repeat split; try (vm_compute; reflexivity).
  vm_compute. tauto.
Qed.

(** The same for every canvas and every such window. *)
Lemma onScroll_flat_document (h : HeroCanvas) (w : Window) :
  scrollTopQ w == 0 -> scrollHeight w = innerHeight w ->
  targetFrame (onScroll w h) = JS.NaN.
Proof.
  intros H0 Hflat. unfold onScroll. cbn [targetFrame set_targetFrame].
  now rewrite (proj2 (scrollFraction_NaN_iff w) (conj H0 Hflat)).
Qed.

(** Every other measurement gives a target among the frames; on a document
    shorter than the viewport the fraction of a non-negative scroll position
    is 0. *)
Lemma onScroll_guarded (h : HeroCanvas) (w : Window) :
  (1 <= totalFrames h)%Z ->
  ~ (scrollTopQ w == 0 /\ scrollHeight w = innerHeight w) ->
  JS.within 0 (inject_Z (totalFrames h - 1)) (targetFrame (onScroll w h)).
Proof.
  intros HN Hw. rewrite <- scrollFraction_NaN_iff in Hw.
  destruct (scrollFraction_cases w) as [E | (f & E & Hf)]; [contradiction |].
  unfold onScroll. cbn [targetFrame set_targetFrame totalFrames]. rewrite E.
  now apply target_of_fraction_range.
Qed.

(** ** C10: the two variants of the scroll handler *)



(** ** C3: smoothing towards a fixed target *)



(** ** C4: the invariant of the scrub state *)

(** C4 fails on the code: the loaded page satisfies the invariant, and a
    scroll event at the top of a document exactly as tall as the viewport
    makes [targetFrame] [NaN]; the next tick makes [currentFrame] [NaN] too,
    and it stays so. *)
Theorem C4_invariant_broken_by_zero_over_zero :
  scroll_bound page_loaded = true /\
  scrub_invariant (hero page_loaded) /\
  targetFrame (hero (run page_loaded [Scroll (window_at 0 900)])) = JS.NaN /\
  ~ scrub_invariant (hero (run page_loaded [Scroll (window_at 0 900)])) /\
  currentFrame (hero (run page_loaded [Scroll (window_at 0 900); Frame]))
    = JS.NaN /\
  currentFrame
    (hero (run page_loaded
             [Scroll (window_at 0 900); Frame; Scroll (window_at 450 1800);
              Frame]))
    = JS.NaN.
Proof.
  split; [vm_compute; reflexivity |].
  split; [vm_compute; intuition discriminate |].
  split; [vm_compute; reflexivity |].
  split; [vm_compute; tauto |].
  split; vm_compute; reflexivity.
Qed.

(** ** C5: the fade of the last frames *)

(** C5: for a frame [i] between 0 and [N - 1] whose image has loaded,
    [drawFrame] sets the opacity of the canvas to [(N - i) / 8] clamped to
    the interval from 0 to 1 when [N - i <= 8], and to 1 otherwise; with 248
    frames, frame 244 is drawn at opacity 1/2. *)
Theorem C5_fade_opacity (h : HeroCanvas) (i : Z) (img : image) :
  (0 <= i <= totalFrames h - 1)%Z ->
  images_at h (JS.of_Z i) = Some img -> img_width img <> 0%Z ->
  (exists a : Q,
     style_opacity (drawFrame (JS.of_Z i) h) = Some (JS.Fin a) /\
     ((totalFrames h - i <= 8)%Z ->
        a == clampQ (inject_Z (totalFrames h - i) / 8) 0 1) /\
     ((8 < totalFrames h - i)%Z -> a == 1)) /\
  fade_alpha 248 (JS.of_Z 244) =n= JS.Fin (1 # 2).
Proof.
  intros Hi Himg Hw. split; [| vm_compute; reflexivity].
  destruct (drawFrame_available _ _ _ Himg Hw) as [E _].
  destruct (fade_alpha_frames (totalFrames h) i Hi) as (a & Ea & Ha).
  exists a. split; [| exact Ha]. now rewrite E, Ea.
Qed.

(** C5 at frame 244 of the loaded page. *)
Lemma C5_fade_opacity_witness :
  exists a : Q,
    style_opacity (drawFrame (JS.of_Z 244) (hero page_loaded))
      = Some (JS.Fin a) /\
    a == 1 # 2.
Proof.
  destruct (C5_fade_opacity (hero page_loaded) 244 frame_image)
    as [(a & E & Ha & _) _].
  - vm_compute. split; discriminate.
  - vm_compute. reflexivity.
  - vm_compute. discriminate.
  - exists a. split; [exact E |].
    rewrite Ha by (vm_compute; discriminate). vm_compute. reflexivity.
Defined.

(** ** C6: the placement of the image *)

(** C6: for a canvas and an image of positive dimensions, [drawFrame] draws
    the image at the placement where, if the ratio of the canvas exceeds that
    of the image, the width is the width of the canvas, the height is the
    width over the ratio of the image, the horizontal offset is 0 and the
    vertical offset centres the image; and where otherwise the height is the
    height of the canvas, the width is the height times the ratio of the
    image, the vertical offset is 0 and the horizontal offset centres it. *)
Theorem C6_aspect_fit_placement (h : HeroCanvas) (index : JS.num)
    (iw ih : Z) :
  (0 < clientWidth h)%Z -> (0 < clientHeight h)%Z ->
  (0 < iw)%Z -> (0 < ih)%Z ->
  images_at h index = Some (Image iw ih) ->
  let canvasWidth := inject_Z (clientWidth h) in
  let canvasHeight := inject_Z (clientHeight h) in
  let canvasRatio := canvasWidth / canvasHeight in
  let imageRatio := inject_Z iw / inject_Z ih in
  exists offsetX offsetY drawWidth drawHeight : Q,
    ctx_calls (drawFrame index h) =
      ctx_calls h ++
        [ClearRect (JS.of_Z 0) (JS.of_Z 0)
           (JS.of_Z (clientWidth h)) (JS.of_Z (clientHeight h));
         Save;
         DrawImage (Image iw ih) (JS.Fin offsetX) (JS.Fin offsetY)
           (JS.Fin drawWidth) (JS.Fin drawHeight);
         Restore] /\
    (imageRatio < canvasRatio ->
       drawWidth == canvasWidth /\ drawHeight == drawWidth / imageRatio /\
       offsetX == 0 /\ offsetY == (canvasHeight - drawHeight) / 2) /\
    (canvasRatio <= imageRatio ->
       drawHeight == canvasHeight /\ drawWidth == drawHeight * imageRatio /\
       offsetY == 0 /\ offsetX == (canvasWidth - drawWidth) / 2).
Proof.
  intros Hcw Hch Hiw Hih Himg canvasWidth canvasHeight canvasRatio imageRatio.
  destruct (aspect_fit_positive _ _ _ _ Hcw Hch Hiw Hih)
    as (ox & oy & dw & dh & E & H1 & H2).
  assert (Hw : img_width (Image iw ih) <> 0%Z) by (simpl; lia).
  destruct (drawFrame_available _ _ _ Himg Hw) as [_ C].
  rewrite E in C.
  exists ox, oy, dw, dh. split; [exact C |]. split; assumption.
Qed.

(** C6 for frame 0 of the loaded page, a 16:9 image on the 4:3 canvas. *)
Lemma C6_aspect_fit_placement_witness :
  exists offsetX offsetY drawWidth drawHeight : Q,
    ctx_calls (drawFrame (JS.of_Z 0) (hero page_loaded)) =
      ctx_calls (hero page_loaded) ++
        [ClearRect (JS.of_Z 0) (JS.of_Z 0) (JS.of_Z 1200) (JS.of_Z 900);
         Save;
         DrawImage frame_image (JS.Fin offsetX) (JS.Fin offsetY)
           (JS.Fin drawWidth) (JS.Fin drawHeight);
         Restore] /\
    drawHeight == 900 /\ drawWidth == 1600 /\
    offsetY == 0 /\ offsetX == -200.
Proof.
  pose proof (C6_aspect_fit_placement (hero page_loaded) (JS.of_Z 0) 1920 1080)
    as H.
  assert (Ew : clientWidth (hero page_loaded) = 1200%Z)
    by (vm_compute; reflexivity).
  assert (Eh : clientHeight (hero page_loaded) = 900%Z)
    by (vm_compute; reflexivity).
  rewrite Ew, Eh in H. cbv zeta in H.
  destruct H as (ox & oy & dw & dh & E & _ & H); try lia.
  - vm_compute. reflexivity.
  - exists ox, oy, dw, dh. split; [exact E |].
    destruct H as (H1 & H2 & H3 & H4); [vm_compute; discriminate |].
    change (inject_Z 900) with 900 in *.
    change (inject_Z 1200) with 1200 in *.
    change (inject_Z 1920 / inject_Z 1080) with (1920 / 1080) in *.
    assert (B : dw == 1600) by (rewrite H2, H1; reflexivity).
    repeat split; try assumption.
    rewrite H4, B. reflexivity.
Defined.

(** ** C7: a slot that cannot be drawn *)

(** C7: for an index whose slot is empty or holds the element of a failed
    load (an image of width 0), [drawFrame] returns the canvas as it found
    it: no call on the context, no change of opacity. *)
Theorem C7_unavailable_slot_noop (h : HeroCanvas) (index : JS.num) :
  slot_unavailable (images_at h index) ->
  drawFrame index h = h /\
  ctx_calls (drawFrame index h) = ctx_calls h /\
  style_opacity (drawFrame index h) = style_opacity h.
Proof.
  intros H. now rewrite (drawFrame_unavailable index h H).
Qed.

(** C7 at the failed second frame of the page of three, and at a slot of
    the new canvas that no fetch has filled yet. *)
Lemma C7_unavailable_slot_noop_witness :
  images_at (hero (run page_three events_three)) (JS.of_Z 1)
    = Some broken_image /\
  drawFrame (JS.of_Z 1) (hero (run page_three events_three))
    = hero (run page_three events_three) /\
  images_at hero0 (JS.of_Z 5) = None /\
  drawFrame (JS.of_Z 5) hero0 = hero0.
Proof.
  split; [vm_compute; reflexivity |]. split; [| split].
  - apply (C7_unavailable_slot_noop (hero (run page_three events_three))
             (JS.of_Z 1)).
    vm_compute. reflexivity.
  - vm_compute. reflexivity.
  - apply (C7_unavailable_slot_noop hero0 (JS.of_Z 5)).
    vm_compute. exact I.
Defined.

(** ** C8: preloading settles once, after every fetch *)

(** C8: after any sequence of events, the reaction to [Promise.all] has run
    at most once and the promise is never rejected; it has run, and the
    promise is fulfilled, exactly when the fetch of every one of the [N]
    frames has come back, by [load] or by [error]; the promise of a frame is
    fulfilled exactly when its own fetch has come back, whatever became of
    the others; the slot of such a frame holds the element its last event
    stored; and when every fetch comes back once and decoded images have a
    width, the slots that cannot be drawn are exactly those of the failed
    fetches. *)
Theorem C8_preload_settles (N : Z) (w : Window) (bw bh : JS.num) (cw ch : Z)
    (classes : list string) (evs : list event) :
  let p := run (new_HeroCanvas N w bw bh cw ch classes) evs in
  let n := Z.to_nat N in
  (then_runs p <= 1)%nat /\
  all_promise p <> Rejected /\
  (then_runs p = 1%nat <-> forall i, (i < n)%nat -> i ∈ fetches evs) /\
  (all_promise p = Fulfilled <-> forall i, (i < n)%nat -> i ∈ fetches evs) /\
  (forall i, (i < n)%nat ->
     (frame_promises p !! i = Some Fulfilled <-> i ∈ fetches evs)) /\
  (forall i, (i < n)%nat ->
     images (hero p) !! i = Some (last_fetch evs i)) /\
  (NoDup (fetches evs) ->
   (forall i img, Load i img ∈ evs -> img_width img <> 0%Z) ->
   forall i, (i < n)%nat -> i ∈ fetches evs ->
     is_Some (mjoin (images (hero p) !! i)) /\
     (slot_unavailable (mjoin (images (hero p) !! i)) <-> Error i ∈ evs)).
Proof.
  intros p n.
  destruct (run_preload_inv N w bw bh cw ch classes evs)
    as ((HL & HP & HA & HT & HB) & HIL & HI).
  fold p n in HL, HP, HA, HT, HB, HIL, HI.
  assert (HF : forallb is_fulfilled (frame_promises p) = true <->
               forall i, (i < n)%nat -> i ∈ fetches evs).
  { rewrite forallb_fulfilled. split.
    - intros H i Hi. specialize (H i _ (HP i Hi)).
      case_bool_decide; [assumption | discriminate].
    - intros H j s Hj.
      assert (Hjn : (j < n)%nat).
      { rewrite <- HL. apply lookup_lt_is_Some. eauto. }
      rewrite (HP j Hjn) in Hj. injection Hj as <-.
      now rewrite bool_decide_eq_true_2 by auto. }
  split. { rewrite HT. destruct (forallb _ _); lia. }
  split. { rewrite HA. destruct (forallb _ _); discriminate. }
  split.
  { rewrite HT, <- HF.
    destruct (forallb _ _); split; (reflexivity || discriminate). }
  split.
  { rewrite HA, <- HF.
    destruct (forallb _ _); split; (reflexivity || discriminate). }
  split.
  { intros i Hi. rewrite (HP i Hi).
    case_bool_decide; split; intros ?;
      try assumption; try reflexivity; try discriminate; contradiction. }
  split; [exact HI |].
  intros ND Hdec i Hi Hin. rewrite (HI i Hi). simpl.
  apply fetched_event in Hin. destruct Hin as [[img Hev] | Hev].
  - pose proof (last_fetch_unique evs (Load i img) i ND Hev eq_refl) as U.
    rewrite U. simpl. split; [eauto |]. split.
    + intros Hw. exfalso. exact (Hdec i img Hev Hw).
    + intros Herr. exfalso.
      pose proof (last_fetch_unique evs (Error i) i ND Herr eq_refl) as U'.
      rewrite U in U'. simpl in U'. injection U' as ->.
      now apply (Hdec i broken_image Hev).
  - rewrite (last_fetch_unique evs (Error i) i ND Hev eq_refl). simpl.
    split; [eauto |]. split; [intros _; exact Hev | reflexivity].
Qed.

(** C8 on the page of three frames whose second fetch fails: the reaction has
    run once, and the failed slot is the one that cannot be drawn. *)
Lemma C8_preload_settles_witness :
  then_runs (run page_three events_three) = 1%nat /\
  all_promise (run page_three events_three) = Fulfilled /\
  (forall i, (i < 3)%nat ->
     slot_unavailable (mjoin (images (hero (run page_three events_three)) !! i))
     <-> i = 1%nat).
Proof.
  pose proof (C8_preload_settles 3 (window_at 0 1800) (JS.of_Z 300)
                (JS.of_Z 150) 300 150 ["hero"] events_three)
    as (_ & _ & H1 & H2 & _ & _ & H3).
  assert (EF : fetches events_three = [2; 1; 0]%nat) by reflexivity.
  assert (All : forall i, (i < Z.to_nat 3)%nat -> i ∈ fetches events_three).
  { intros i Hi. change (Z.to_nat 3) with 3%nat in Hi. rewrite EF.
    destruct i as [| [| [| i]]]; [| | | lia];
      apply (bool_decide_unpack _); reflexivity. }
  split; [now apply H1 |]. split; [now apply H2 |].
  intros i Hi.
  assert (ND : NoDup (fetches events_three)).
  { rewrite EF. apply (bool_decide_unpack _). reflexivity. }
  assert (Dec : forall j img,
             Load j img ∈ events_three -> img_width img <> 0%Z).
  { intros j img H. unfold events_three in H.
    repeat (apply elem_of_cons in H as [H | H];
            [try discriminate; injection H as -> ->; vm_compute;
             discriminate |]).
    now apply elem_of_nil in H. }
  destruct (H3 ND Dec i Hi (All i Hi)) as [_ ->].
  split.
  - intros H. unfold events_three in H.
    repeat (apply elem_of_cons in H as [H | H];
            [try discriminate; now injection H as -> |]).
    now apply elem_of_nil in H.
  - intros ->. unfold events_three.
    apply elem_of_cons. right. apply elem_of_cons. now left.
Defined.

(** ** C9: the end-of-sequence signal *)

(** C9: when a tick of the render loop leaves the position at or beyond
    [N - 2], the [.hero] element has the class [visible] after that tick and
    after every sequence of further events, scrolling back included; and
    signalling again leaves its class list as it is. *)
Theorem C9_signal_is_one_way (p : Page) (evs : list event) :
  scroll_bound p = true ->
  JS.ge (currentFrame (hero (handle p Frame)))
        (JS.of_Z (totalFrames (hero p) - 2)) = true ->
  "visible" ∈ hero_classList (hero (handle p Frame)) /\
  "visible" ∈ hero_classList (hero (run (handle p Frame) evs)) /\
  (forall h : HeroCanvas,
     "visible" ∈ hero_classList h ->
     hero_classList (crossfadeIfEnding h) = hero_classList h) /\
  (forall h : HeroCanvas,
     crossfadeIfEnding (crossfadeIfEnding h) = crossfadeIfEnding h).
Proof.
  intros Hb Hge.
  assert (V : "visible" ∈ hero_classList (hero (handle p Frame))).
  { simpl in *. rewrite Hb in *. simpl in *. now apply loop_signals. }
  split; [exact V |]. split; [now apply run_keeps_visible |].
  split; [| apply crossfadeIfEnding_idem].
  intros h Hv. unfold crossfadeIfEnding.
  destruct (JS.ge (currentFrame h) _); [| reflexivity].
  cbn [hero_classList set_hero_classList]. unfold classList_add.
  now rewrite bool_decide_eq_true_2.
Qed.

(** C9 on the loaded page near the end of the sequence: the next tick sets
    the signal, and scrolling back up does not remove it. *)
Lemma C9_signal_is_one_way_witness :
  ("visible" ∉ hero_classList (hero page_near_end)) /\
  ("visible" ∈ hero_classList (hero (handle page_near_end Frame))) /\
  ("visible" ∈ hero_classList
                 (hero (run (handle page_near_end Frame) events_back_up))).
Proof.
  split.
  - vm_compute. intros H.
    repeat (apply elem_of_cons in H as [H | H]; [discriminate |]).
    now apply elem_of_nil in H.
  - destruct (C9_signal_is_one_way page_near_end events_back_up)
      as (H1 & H2 & _).
    + vm_compute. reflexivity.
    + vm_compute. reflexivity.
    + split; assumption.
Defined.

(** * Further properties of the script *)

(** ** The address of a frame *)

Section FrameUrl.

Lemma string_length_app (a b : string) :
  String.length (a +:+ b) = (String.length a + String.length b)%nat.
Proof. induction a as [| x a IH]; simpl; [reflexivity | now rewrite IH]. Qed.

Lemma string_app_inj_r (a b c : string) : a +:+ c = b +:+ c -> a = b.
Proof.
  revert b. induction a as [| x a IH]; intros [| y b] H; simpl in H.
  - reflexivity.
  - apply (f_equal String.length) in H. simpl in H.
    rewrite !string_length_app in H. simpl in H. exfalso. lia.
  - apply (f_equal String.length) in H. simpl in H.
    rewrite !string_length_app in H. simpl in H. exfalso. lia.
  - injection H as -> H. f_equal. now apply IH.
Qed.

(** Zeros in front of a numeral do not change the number it denotes. *)
Lemma zeros_number (k : nat) (s : string) (d : Decimal.uint) :
  DecimalString.NilEmpty.uint_of_string s = Some d ->
  Nat.of_uint <$>
    DecimalString.NilEmpty.uint_of_string (Nat.iter k (String "0"%char) s)
  = Some (Nat.of_uint d).
Proof.
  intros H. induction k as [| k IH]; simpl.
  - now rewrite H.
  - destruct (DecimalString.NilEmpty.uint_of_string
                (Nat.iter k (String "0"%char) s)) as [d' |];
      simpl in *; [| discriminate].
    injection IH as IH. f_equal. exact IH.
Qed.

(** The padded numeral of a frame denotes the frame. *)
Lemma padded_number (n i : nat) :
  Nat.of_uint <$>
    DecimalString.NilEmpty.uint_of_string (padStart0 n (String_of_nat i))
  = Some i.
Proof.
  unfold padStart0, String_of_nat.
  rewrite (zeros_number _ _ (Nat.to_uint i)).
  - now rewrite DecimalNat.Unsigned.of_to.
  - apply DecimalString.NilEmpty.usu.
Qed.

Lemma frame_url_inj (prefix : string) (i j : nat) :
  frame_url prefix i = frame_url prefix j -> i = j.
Proof.
  unfold frame_url. intros H.
  apply String.app_inj in H. apply string_app_inj_r in H.
  pose proof (padded_number 4 i) as Hi. rewrite H, padded_number in Hi.
  now injection Hi.
Qed.

Lemma padStart0_length (n : nat) (s : string) :
  String.length (padStart0 n s) = Nat.max n (String.length s).
Proof.
  unfold padStart0.
  assert (E : forall k, String.length (Nat.iter k (String "0"%char) s)
                        = (k + String.length s)%nat).
  { induction k as [| k IH]; simpl; [reflexivity | now rewrite IH]. }
  rewrite E. lia.
Qed.

End FrameUrl.

(** X1: Distinct frames are fetched from distinct addresses, in both source
    files, and the numeral in an address has at least four digits. *)
Theorem FRAME_URL_injective (i j : nat) :
  i <> j ->
  FRAME_URL i <> FRAME_URL j /\
  Direct.FRAME_URL i <> Direct.FRAME_URL j /\
  (4 <= String.length (padStart0 4 (String_of_nat i)))%nat.
Proof.
  intros Hne. split; [| split].
  - intros H. apply Hne. exact (frame_url_inj _ _ _ H).
  - intros H. apply Hne. exact (frame_url_inj _ _ _ H).
  - rewrite padStart0_length. lia.
Qed.

Lemma FRAME_URL_injective_witness :
  FRAME_URL 7 = "assets/0007.png" /\
  FRAME_URL 248 = "assets/0248.png" /\
  FRAME_URL 7 <> FRAME_URL 70.
Proof.
  split; [reflexivity |]. split; [reflexivity |].
  apply (FRAME_URL_injective 7 70). lia.
Defined.

(** ** The geometry of a drawn frame *)

(** X9: The placement of [drawFrame] covers the canvas: the image keeps its
    ratio, is centred on the canvas, and is at least as wide and as high as
    the canvas, so it is cropped rather than boxed when the ratios differ. *)
Theorem aspect_fit_covers (cw ch iw ih : Z) :
  (0 < cw)%Z -> (0 < ch)%Z -> (0 < iw)%Z -> (0 < ih)%Z ->
  exists offsetX offsetY drawWidth drawHeight : Q,
    aspect_fit cw ch (Image iw ih) =
      (JS.Fin offsetX, JS.Fin offsetY, JS.Fin drawWidth, JS.Fin drawHeight) /\
    drawWidth * inject_Z ih == drawHeight * inject_Z iw /\
    inject_Z cw <= drawWidth /\ inject_Z ch <= drawHeight /\
    offsetX <= 0 /\ offsetY <= 0 /\
    offsetX + drawWidth / 2 == inject_Z cw / 2 /\
    offsetY + drawHeight / 2 == inject_Z ch / 2.
Proof.
  intros Hcw Hch Hiw Hih.
  destruct (aspect_fit_positive cw ch iw ih Hcw Hch Hiw Hih)
    as (ox & oy & dw & dh & E & H1 & H2).
  exists ox, oy, dw, dh. split; [exact E |].
  apply inject_Z_pos in Hcw, Hch, Hiw, Hih.
  set (W := inject_Z cw) in *. set (H := inject_Z ch) in *.
  set (w := inject_Z iw) in *. set (h := inject_Z ih) in *.
  assert (Hr : 0 < w / h) by now apply Qdiv_pos.
  assert (Ewh : w / h * h == w) by (field; lra).
  assert (EWH : W / H * H == W) by (field; lra).
  destruct (Qlt_le_dec (w / h) (W / H)) as [L | L].
  - destruct (H1 L) as (A & B & C & D).
    assert (Edh : dh * (w / h) == W) by (rewrite B, A; field; split; lra).
    assert (Hdh : H <= dh).
    { destruct (Qlt_le_dec dh H) as [Lt | Ge]; [exfalso | exact Ge].
      assert (0 < (H - dh) * (w / h)) by (apply Qmult_lt_0_compat; lra).
      assert (0 < (W / H - w / h) * H) by (apply Qmult_lt_0_compat; lra).
      assert (E1 : (H - dh) * (w / h) == H * (w / h) - dh * (w / h)) by ring.
      assert (E2 : (W / H - w / h) * H == W / H * H - H * (w / h)) by ring.
      lra. }
    assert (Eq1 : dw * h == dh * w).
    { rewrite A. rewrite <- Edh. rewrite <- Ewh at 2. ring. }
    assert (D2 : oy * 2 == H - dh) by (rewrite D; field).
    split; [exact Eq1 |]. split; [lra |]. split; [exact Hdh |].
    split; [lra |]. split; [lra |]. split.
    + rewrite C, A. field.
    + rewrite D. field.
  - destruct (H2 L) as (A & B & C & D).
    assert (Hdw : W <= dw).
    { rewrite B, A.
      assert (0 <= (w / h - W / H) * H) by (apply Qmult_le_0_compat; lra).
      assert (E2 : (w / h - W / H) * H == H * (w / h) - W / H * H) by ring.
      lra. }
    assert (Eq1 : dw * h == dh * w).
    { rewrite B, A. rewrite <- Ewh at 2. ring. }
    assert (D2 : ox * 2 == W - dw) by (rewrite D; field).
    split; [exact Eq1 |]. split; [exact Hdw |]. split; [lra |].
    split; [lra |]. split; [lra |]. split.
    + rewrite D. field.
    + rewrite C, A. field.
Qed.

Lemma aspect_fit_covers_witness :
  exists offsetX offsetY drawWidth drawHeight : Q,
    aspect_fit 1200 900 (Image 1920 1080) =
      (JS.Fin offsetX, JS.Fin offsetY, JS.Fin drawWidth, JS.Fin drawHeight) /\
    drawWidth * inject_Z 1080 == drawHeight * inject_Z 1920 /\
    inject_Z 1200 <= drawWidth /\ inject_Z 900 <= drawHeight /\
    offsetX <= 0 /\ offsetY <= 0 /\
    offsetX + drawWidth / 2 == inject_Z 1200 / 2 /\
    offsetY + drawHeight / 2 == inject_Z 900 / 2.
Proof. apply (aspect_fit_covers 1200 900 1920 1080); lia. Defined.

(** ** The fade over the last frames *)

Section Fade.

(** The opacity of a frame of the sequence, as a rational. *)
Lemma fade_alpha_value (N i : Z) :
  (0 <= i <= N - 1)%Z ->
  exists a, fade_alpha N (JS.of_Z i) = JS.Fin a /\
    a == Qmin 1 (inject_Z (N - i) / 8).
Proof.
  intros Hi. destruct (fade_alpha_frames N i Hi) as (a & E & H1 & H2).
  exists a. split; [exact E |].
  assert (H8 : (8#1) == inject_Z 8) by reflexivity.
  destruct (Z_le_gt_dec (N - i) 8) as [L | G].
  - rewrite (H1 L).
    assert (Hhi : inject_Z (N - i) / 8 <= 1).
    { apply Qle_shift_div_r; [reflexivity |].
      rewrite Zle_Qle in L. change (inject_Z 8) with 8 in L. lra. }
    assert (Hlo : 0 <= inject_Z (N - i) / 8).
    { apply Qle_shift_div_l; [reflexivity |].
      assert (H0 : (0 <= N - i)%Z) by lia. rewrite Zle_Qle in H0.
      change (inject_Z 0) with 0 in H0. lra. }
    rewrite clampQ_id by lra. symmetry. apply Q.min_r. exact Hhi.
  - rewrite H2 by lia. symmetry. apply Q.min_l.
    apply Qle_shift_div_l; [reflexivity |].
    assert (H0 : (8 <= N - i)%Z) by lia. rewrite Zle_Qle in H0.
    change (inject_Z 8) with 8 in H0. lra.
Qed.

End Fade.

(** X10: Over the frames of the sequence the opacity [drawFrame] sets never
    rises with the frame, is 1 up to frame [N - 8], below 1 from frame
    [N - 7] on, and is [1/8] at the last frame; it is never 0. *)
Theorem fade_alpha_ramp (N i j : Z) :
  (0 <= i <= j)%Z -> (j <= N - 1)%Z ->
  exists a b : Q,
    fade_alpha N (JS.of_Z i) = JS.Fin a /\
    fade_alpha N (JS.of_Z j) = JS.Fin b /\
    1 # 8 <= b /\ b <= a /\ a <= 1 /\
    (a == 1 <-> (i <= N - 8)%Z) /\
    (j = (N - 1)%Z -> b == 1 # 8).
Proof.
  intros Hij HjN.
  destruct (fade_alpha_value N i ltac:(lia)) as (a & Ea & Ha).
  destruct (fade_alpha_value N j ltac:(lia)) as (b & Eb & Hb).
  exists a, b. split; [exact Ea |]. split; [exact Eb |].
  assert (Hi1 : 1 <= inject_Z (N - i)).
  { change 1 with (inject_Z 1). rewrite <- Zle_Qle. lia. }
  assert (Hj1 : 1 <= inject_Z (N - j)).
  { change 1 with (inject_Z 1). rewrite <- Zle_Qle. lia. }
  assert (Hji : inject_Z (N - j) <= inject_Z (N - i)).
  { rewrite <- Zle_Qle. lia. }
  assert (Di : inject_Z (N - i) / 8 == inject_Z (N - i) * (1 # 8))
    by (field).
  assert (Dj : inject_Z (N - j) / 8 == inject_Z (N - j) * (1 # 8))
    by (field).
  rewrite Di in Ha. rewrite Dj in Hb.
  destruct (Qmin_cases 1 (inject_Z (N - i) * (1 # 8))) as [[La Ma] | [La Ma]];
    destruct (Qmin_cases 1 (inject_Z (N - j) * (1 # 8))) as [[Lb Mb] | [Lb Mb]];
    rewrite Ma in Ha; rewrite Mb in Hb.
  all: split; [lra |]. all: split; [lra |]. all: split; [lra |].
  all: split;
    [ split;
      [ intros E1;
        assert (Hq : 8 <= inject_Z (N - i)) by lra;
        change 8 with (inject_Z 8) in Hq; rewrite <- Zle_Qle in Hq; lia
      | intros Hz; assert (Hq : (8 <= N - i)%Z) by lia;
        rewrite Zle_Qle in Hq; change (inject_Z 8) with 8 in Hq; lra ]
    | intros ->; replace (N - (N - 1))%Z with 1%Z in * by lia;
      change (inject_Z 1) with 1 in *; lra ].
Qed.

Lemma fade_alpha_ramp_witness :
  exists a b : Q,
    fade_alpha 248 (JS.of_Z 240) = JS.Fin a /\
    fade_alpha 248 (JS.of_Z 247) = JS.Fin b /\
    1 # 8 <= b /\ b <= a /\ a <= 1 /\
    (a == 1 <-> (240 <= 248 - 8)%Z) /\
    ((247 = 248 - 1)%Z -> b == 1 # 8).
Proof. apply (fade_alpha_ramp 248 240 247); lia. Defined.

(** ** Resizing *)

Section Resize.

Lemma drawFrame_canvas (index : JS.num) (h : HeroCanvas) :
  canvas_width (drawFrame index h) = canvas_width h /\
  canvas_height (drawFrame index h) = canvas_height h /\
  clientWidth (drawFrame index h) = clientWidth h /\
  clientHeight (drawFrame index h) = clientHeight h.
Proof. open_drawFrame; repeat split; reflexivity. Qed.

Lemma Math_round_bounds (x : Q) :
  exists k : Z, JS.Math_round (JS.Fin x) = JS.of_Z k /\
    inject_Z k - (1 # 2) <= x /\ x < inject_Z k + (1 # 2).
Proof.
  exists (Qfloor (x + (1 # 2))). split; [reflexivity |].
  pose proof (Qfloor_le (x + (1 # 2))) as H1.
  pose proof (Qlt_floor (x + (1 # 2))) as H2.
  rewrite inject_Z_plus in H2. change (inject_Z 1) with 1 in H2.
  split; lra.
Qed.

Lemma effective_dpr_or (w : Window) :
  JS.or (JS.Fin (devicePixelRatio w)) (JS.of_Z 1) =n= JS.Fin (effective_dpr w).
Proof.
  unfold JS.or, JS.truthy, effective_dpr.
  destruct (Qeq_bool (devicePixelRatio w) 0); simpl; reflexivity.
Qed.

End Resize.


(** ** Scrolling further never moves the target back *)

Section ScrollOrder.

Lemma clamp01_mono (x y : Q) :
  x <= y -> Qmax 0 (Qmin 1 x) <= Qmax 0 (Qmin 1 y).
Proof.
  intros H.
  destruct (Qmin_cases 1 x) as [[? E1] | [? E1]];
    destruct (Qmin_cases 1 y) as [[? E2] | [? E2]];
    destruct (Qmax_cases 0 (Qmin 1 x)) as [[? E3] | [? E3]];
    destruct (Qmax_cases 0 (Qmin 1 y)) as [[? E4] | [? E4]];
    rewrite E3, E4; rewrite ?E1, ?E2 in *; lra.
Qed.

Lemma target_mono (N : Z) (f g : Q) :
  (0 <= N)%Z -> f <= g ->
  Qmin (inject_Z (N - 1)) (f * inject_Z N)
    <= Qmin (inject_Z (N - 1)) (g * inject_Z N).
Proof.
  intros HN H.
  assert (H0 : 0 <= inject_Z N).
  { change 0 with (inject_Z 0). rewrite <- Zle_Qle. lia. }
  assert (0 <= (g - f) * inject_Z N) by (apply Qmult_le_0_compat; lra).
  assert (E : (g - f) * inject_Z N == g * inject_Z N - f * inject_Z N) by ring.
  destruct (Qmin_cases (inject_Z (N - 1)) (f * inject_Z N))
    as [[? E1] | [? E1]];
    destruct (Qmin_cases (inject_Z (N - 1)) (g * inject_Z N))
      as [[? E2] | [? E2]];
    rewrite E1, E2; lra.
Qed.

Lemma quotient_mono (a b m : Q) : 0 < m -> a <= b -> a / m <= b / m.
Proof.
  intros Hm H. apply Qle_shift_div_l; [exact Hm |].
  assert (E : a / m * m == a) by (field; lra). lra.
Qed.

End ScrollOrder.

(** X6: On a document taller than the viewport the target follows the scroll
    position monotonically; at and above the top it is 0, and from the
    position [(N - 1) / N] of the scroll range on, the bottom and any
    overscroll included, it is [N - 1]. *)
Theorem onScroll_monotone (h : HeroCanvas) (w1 w2 : Window) :
  (1 <= totalFrames h)%Z ->
  scrollHeight w1 = scrollHeight w2 -> innerHeight w1 = innerHeight w2 ->
  (innerHeight w1 < scrollHeight w1)%Z ->
  scrollTopQ w1 <= scrollTopQ w2 ->
  let N := totalFrames h in
  let range := inject_Z (scrollHeight w1 - innerHeight w1) in
  exists t1 t2 : Q,
    targetFrame (onScroll w1 h) = JS.Fin t1 /\
    targetFrame (onScroll w2 h) = JS.Fin t2 /\
    t1 <= t2 /\
    (scrollTopQ w1 <= 0 -> t1 == 0) /\
    (inject_Z (N - 1) * range <= scrollTopQ w2 * inject_Z N ->
     t2 == inject_Z (N - 1)) /\
    (range <= scrollTopQ w2 -> t2 == inject_Z (N - 1)).
Proof.
  intros HN EH EI Hs Hle N range.
  assert (Hr : 0 < range).
  { unfold range. apply inject_Z_pos. lia. }
  assert (S1 : scrollHeight w1 <> innerHeight w1) by lia.
  assert (S2 : scrollHeight w2 <> innerHeight w2) by lia.
  unfold onScroll. cbn [targetFrame set_targetFrame]. fold N.
  rewrite (scrollFraction_scrollable w1 S1), (scrollFraction_scrollable w2 S2).
  rewrite <- EH, <- EI. fold range. rewrite !target_of_fraction_Fin.
  set (f1 := Qmax 0 (Qmin 1 (scrollTopQ w1 / range))).
  set (f2 := Qmax 0 (Qmin 1 (scrollTopQ w2 / range))).
  assert (HN0 : 0 <= inject_Z (N - 1)).
  { change 0 with (inject_Z 0). rewrite <- Zle_Qle. unfold N. lia. }
  assert (HN1 : inject_Z (N - 1) <= inject_Z N).
  { rewrite <- Zle_Qle. lia. }
  assert (Hf2 : 0 <= f2 <= 1) by (apply (clampQ_range _ 0 1); lra).
  do 2 eexists. split; [reflexivity |]. split; [reflexivity |].
  split; [| split; [| split]].
  - apply target_mono; [unfold N; lia |].
    apply clamp01_mono. now apply quotient_mono.
  - intros H0.
    assert (Hq : scrollTopQ w1 / range <= 0).
    { apply Qle_shift_div_r; [exact Hr | lra]. }
    assert (E1 : f1 == 0).
    { unfold f1.
      destruct (Qmin_cases 1 (scrollTopQ w1 / range)) as [[? E] | [? E]];
        destruct (Qmax_cases 0 (Qmin 1 (scrollTopQ w1 / range)))
          as [[? E'] | [? E']]; rewrite E'; rewrite ?E in *; lra. }
    rewrite E1. rewrite Q.min_r; lra.
  - intros Hsat.
    assert (Hq : inject_Z (N - 1) <= scrollTopQ w2 / range * inject_Z N).
    { assert (E : scrollTopQ w2 / range * inject_Z N
                  == scrollTopQ w2 * inject_Z N / range) by (field; lra).
      rewrite E. apply Qle_shift_div_l; [exact Hr | exact Hsat]. }
    assert (Hf : inject_Z (N - 1) <= f2 * inject_Z N).
    { unfold f2.
      destruct (Qmin_cases 1 (scrollTopQ w2 / range)) as [[? E] | [? E]];
        destruct (Qmax_cases 0 (Qmin 1 (scrollTopQ w2 / range)))
          as [[? E'] | [? E']]; rewrite E'; rewrite ?E in *; try lra.
      assert (E0 : 0 * inject_Z N == 0) by ring.
      assert (0 <= (0 - scrollTopQ w2 / range) * inject_Z N)
        by (apply Qmult_le_0_compat; lra).
      assert (E2 : (0 - scrollTopQ w2 / range) * inject_Z N
                   == - (scrollTopQ w2 / range * inject_Z N)) by ring.
      lra. }
    apply Q.min_l. exact Hf.
  - intros Hbot.
    assert (Hq : 1 <= scrollTopQ w2 / range).
    { apply Qle_shift_div_l; [exact Hr | lra]. }
    assert (E2 : f2 == 1).
    { unfold f2.
      destruct (Qmin_cases 1 (scrollTopQ w2 / range)) as [[? E] | [? E]];
        destruct (Qmax_cases 0 (Qmin 1 (scrollTopQ w2 / range)))
          as [[? E'] | [? E']]; rewrite E'; rewrite ?E in *; lra. }
    rewrite E2. apply Q.min_l. lra.
Qed.

Lemma onScroll_monotone_witness :
  exists t1 t2 : Q,
    targetFrame (onScroll (window_at 100 1800) (hero page_loaded))
      = JS.Fin t1 /\
    targetFrame (onScroll (window_at 897 1800) (hero page_loaded))
      = JS.Fin t2 /\
    t1 <= t2 /\ t2 == 247.
Proof.
  pose proof (onScroll_monotone (hero page_loaded) (window_at 100 1800)
                (window_at 897 1800)) as H.
  assert (E : totalFrames (hero page_loaded) = 248%Z)
    by (vm_compute; reflexivity).
  rewrite E in H. cbv zeta in H.
  destruct H as (t1 & t2 & H1 & H2 & H3 & _ & H5 & _);
    try (vm_compute; congruence).
  exists t1, t2. split; [exact H1 |]. split; [exact H2 |].
  split; [exact H3 |]. rewrite H5; [reflexivity |].
  vm_compute. discriminate.
Defined.

(** ** A position that is not a number *)

Section NotANumber.

Lemma smooth_NaN_target (e : Q) (c : JS.num) : smooth e JS.NaN c = JS.NaN.
Proof. unfold smooth. now destruct c. Qed.

Lemma smooth_NaN_current (e : Q) (t : JS.num) : smooth e t JS.NaN = JS.NaN.
Proof. reflexivity. Qed.

Lemma images_at_NaN (h : HeroCanvas) : images_at h JS.NaN = None.
Proof. reflexivity. Qed.

(** A tick at a position that is not a number changes nothing but the
    position. *)
Lemma loop_NaN (h : HeroCanvas) :
  smooth (ease h) (targetFrame h) (currentFrame h) = JS.NaN ->
  loop h = set_currentFrame JS.NaN h.
Proof.
  intros E. unfold loop. rewrite E.
  cbn [currentFrame set_currentFrame JS.Math_floor].
  unfold drawFrame. rewrite images_at_NaN.
  unfold crossfadeIfEnding. cbn [currentFrame set_currentFrame].
  reflexivity.
Qed.

Lemma handle_scrub_NaN (p : Page) (ev : event) :
  is_scrub_event ev -> currentFrame (hero p) = JS.NaN ->
  currentFrame (hero (handle p ev)) = JS.NaN /\
  ctx_calls (hero (handle p ev)) = ctx_calls (hero p) /\
  style_opacity (hero (handle p ev)) = style_opacity (hero p) /\
  hero_classList (hero (handle p ev)) = hero_classList (hero p).
Proof.
  intros Hev Hc. destruct ev; try contradiction; simpl.
  - destruct (scroll_bound p); simpl; auto.
  - destruct (scroll_bound p); simpl; auto.
    rewrite loop_NaN by (rewrite Hc; apply smooth_NaN_current).
    simpl. auto.
Qed.

End NotANumber.

(** X7: Once the target or the position is not a number, the next tick makes the
    position not a number, and from then on no scroll event and no tick
    draws, changes the opacity or signals: the canvas keeps the frame it
    shows. *)
Theorem frozen_after_NaN (p : Page) (evs : list event) :
  scroll_bound p = true ->
  targetFrame (hero p) = JS.NaN \/ currentFrame (hero p) = JS.NaN ->
  Forall is_scrub_event evs ->
  let p1 := handle p Frame in
  currentFrame (hero p1) = JS.NaN /\
  currentFrame (hero (run p1 evs)) = JS.NaN /\
  ctx_calls (hero (run p1 evs)) = ctx_calls (hero p) /\
  style_opacity (hero (run p1 evs)) = style_opacity (hero p) /\
  hero_classList (hero (run p1 evs)) = hero_classList (hero p).
Proof.
  intros Hb Hnan Hevs p1.
  assert (E : smooth (ease (hero p)) (targetFrame (hero p))
                (currentFrame (hero p)) = JS.NaN).
  { destruct Hnan as [-> | ->];
      [apply smooth_NaN_target | apply smooth_NaN_current]. }
  assert (H1 : currentFrame (hero p1) = JS.NaN /\
               ctx_calls (hero p1) = ctx_calls (hero p) /\
               style_opacity (hero p1) = style_opacity (hero p) /\
               hero_classList (hero p1) = hero_classList (hero p)).
  { unfold p1. simpl. rewrite Hb. simpl. rewrite (loop_NaN _ E). simpl. auto. }
  split; [apply H1 |].
  clearbody p1. clear E Hnan Hb. revert p1 H1.
  induction Hevs as [| ev evs Hev _ IH]; intros q H1; [exact H1 |].
  simpl. apply IH.
  destruct H1 as (C & E1 & E2 & E3).
  destruct (handle_scrub_NaN q ev Hev C) as (C' & F1 & F2 & F3).
  rewrite F1, F2, F3. auto.
Qed.

Lemma frozen_after_NaN_witness :
  ctx_calls
    (hero (run (handle (handle page_loaded (Scroll (window_at 0 900))) Frame)
             [Scroll (window_at 450 1800); Frame; Frame]))
  = ctx_calls (hero page_loaded) /\
  currentFrame
    (hero (run (handle (handle page_loaded (Scroll (window_at 0 900))) Frame)
             [Scroll (window_at 450 1800); Frame; Frame]))
  = JS.NaN.
Proof.
  pose proof (frozen_after_NaN (handle page_loaded (Scroll (window_at 0 900)))
                [Scroll (window_at 450 1800); Frame; Frame]) as H.
  cbv zeta in H.
  destruct H as (_ & H2 & H3 & _).
  - vm_compute. reflexivity.
  - left. vm_compute. reflexivity.
  - repeat constructor.
  - split; [| exact H2]. rewrite H3. vm_compute. reflexivity.
Defined.

(** ** The position never reaches the last frame *)

Section ShortOfLast.

Lemma drawFrame_opacity (index : JS.num) (h : HeroCanvas) :
  style_opacity (drawFrame index h) = style_opacity h \/
  style_opacity (drawFrame index h)
    = Some (fade_alpha (totalFrames h) index).
Proof. open_drawFrame; auto. Qed.

Lemma fade_alpha_quarter (N k : Z) :
  (0 <= k <= N - 2)%Z ->
  JS.within (1 # 4) 1 (fade_alpha N (JS.of_Z k)).
Proof.
  intros Hk.
  destruct (fade_alpha_value N k ltac:(lia)) as (a & E & Ha).
  rewrite E. simpl. rewrite Ha.
  assert (H2 : 2 <= inject_Z (N - k)).
  { change 2 with (inject_Z 2). rewrite <- Zle_Qle. lia. }
  assert (D : inject_Z (N - k) / 8 == inject_Z (N - k) * (1 # 8)) by field.
  rewrite D.
  destruct (Qmin_cases 1 (inject_Z (N - k) * (1 # 8))) as [[? M] | [? M]];
    rewrite M; lra.
Qed.

(** The floor of a position short of the last frame is a frame before it. *)
Lemma floor_short (N : Z) (c : Q) :
  0 <= c -> c < inject_Z (N - 1) -> (0 <= Qfloor c <= N - 2)%Z.
Proof.
  intros H0 H1. split.
  - rewrite <- (Qfloor_Z 0). now apply Qfloor_resp_le.
  - pose proof (Qfloor_le c) as H.
    assert (L : inject_Z (Qfloor c) < inject_Z (N - 1)) by lra.
    rewrite <- Zlt_Qlt in L. lia.
Qed.

Lemma drawFrame_short (k : Z) (h : HeroCanvas) :
  (0 <= k <= totalFrames h - 2)%Z ->
  short_of_last h -> short_of_last (drawFrame (JS.of_Z k) h).
Proof.
  intros Hk (c & t & Ec & Et & Hc & Ht & Ho).
  exists c, t.
  rewrite drawFrame_currentFrame, drawFrame_targetFrame, drawFrame_totalFrames.
  repeat (split; [assumption |]).
  destruct (drawFrame_opacity (JS.of_Z k) h) as [-> | ->]; [exact Ho |].
  now apply fade_alpha_quarter.
Qed.

Lemma short_of_last_ext (h h' : HeroCanvas) :
  totalFrames h = totalFrames h' -> currentFrame h = currentFrame h' ->
  targetFrame h = targetFrame h' -> style_opacity h = style_opacity h' ->
  short_of_last h' -> short_of_last h.
Proof.
  intros E1 E3 E4 E5 (c & t & H). exists c, t.
  now rewrite E1, E3, E4, E5.
Qed.

Lemma crossfadeIfEnding_short (h : HeroCanvas) :
  short_of_last h -> short_of_last (crossfadeIfEnding h).
Proof.
  apply short_of_last_ext;
    unfold crossfadeIfEnding; now destruct (JS.ge _ _).
Qed.

Lemma set_opacity_one_short (h : HeroCanvas) :
  short_of_last h -> short_of_last (set_opacity (JS.of_Z 1) h).
Proof.
  intros (c & t & Ec & Et & Hc & Ht & _). exists c, t.
  cbn [currentFrame targetFrame totalFrames style_opacity set_opacity].
  repeat (split; [assumption |]).
  unfold JS.within, JS.of_Z. change (inject_Z 1) with 1. lra.
Qed.

Lemma resize_short (w : Window) (h : HeroCanvas) :
  short_of_last h -> short_of_last (resize w h).
Proof.
  intros S. pose proof S as (c & t & Ec & Et & Hc & Ht & Ho).
  unfold resize.
  set (h1 := ctx_call _ (set_canvas_size _ _ _ _ h)).
  assert (S1 : short_of_last h1) by (exists c, t; tauto).
  assert (E1 : currentFrame h1 = JS.Fin c) by exact Ec.
  rewrite E1. cbn [JS.Math_floor].
  destruct (images_at h1 (JS.of_Z (Qfloor c))); [| exact S1].
  apply drawFrame_short; [| exact S1].
  apply floor_short; tauto.
Qed.

Lemma loop_short (h : HeroCanvas) :
  0 < ease h < 1 -> short_of_last h -> short_of_last (loop h).
Proof.
  intros He (c & t & Ec & Et & Hc & Ht & Ho). unfold loop.
  rewrite Ec, Et, smooth_Fin.
  set (c' := smoothQ (ease h) t c).
  assert (Hc' : 0 <= c' /\ c' < inject_Z (totalFrames h - 1)).
  { unfold c'. destruct (Qlt_le_dec t c) as [L | L].
    - pose proof (smoothQ_above _ t He c). lra.
    - pose proof (smoothQ_below _ t He c L) as B.
      pose proof (smoothQ_gap (ease h) t c) as G.
      assert (0 < (1 - ease h) * (inject_Z (totalFrames h - 1) - c))
        by (apply Qmult_lt_0_compat; lra).
      assert (0 <= ease h * (inject_Z (totalFrames h - 1) - t))
        by (apply Qmult_le_0_compat; lra).
      assert (E : inject_Z (totalFrames h - 1) - smoothQ (ease h) t c
                  == (1 - ease h) * (inject_Z (totalFrames h - 1) - c)
                     + ease h * (inject_Z (totalFrames h - 1) - t))
        by (unfold smoothQ; ring).
      lra. }
  set (h1 := set_currentFrame (JS.Fin c') h).
  assert (S1 : short_of_last h1) by (exists c', t; tauto).
  cbn [currentFrame set_currentFrame JS.Math_floor]. fold h1.
  assert (S2 : short_of_last (drawFrame (JS.of_Z (Qfloor c')) h1)).
  { apply drawFrame_short; [| exact S1]. apply floor_short; tauto. }
  now apply crossfadeIfEnding_short.
Qed.

End ShortOfLast.

Section ShortOfLastPage.

Lemma short_frames (h : HeroCanvas) :
  short_of_last h -> (2 <= totalFrames h)%Z.
Proof.
  intros (c & t & _ & _ & [H0 H1] & _).
  assert (L : inject_Z 0 < inject_Z (totalFrames h - 1))
    by (change (inject_Z 0) with 0; lra).
  rewrite <- Zlt_Qlt in L. lia.
Qed.

Lemma resolve_frame_hero (i : nat) (p : Page) :
  hero (resolve_frame i p) = hero p \/
  hero (resolve_frame i p)
    = set_opacity (JS.of_Z 1) (drawFrame (JS.of_Z 0) (hero p)).
Proof.
  unfold resolve_frame.
  destruct (frame_promises p !! i) as [[| |] |]; auto.
  match goal with
  | |- context [Promise_all_settle ?q] =>
      destruct (Promise_all_settle_hero q) as [E | E]; rewrite E; auto
  end.
Qed.

Lemma resolve_frame_short (i : nat) (p : Page) :
  short_of_last (hero p) -> short_of_last (hero (resolve_frame i p)).
Proof.
  intros S. destruct (resolve_frame_hero i p) as [-> | ->]; [exact S |].
  apply set_opacity_one_short. apply drawFrame_short; [| exact S].
  pose proof (short_frames _ S). lia.
Qed.

Lemma onScroll_short (w : Window) (h : HeroCanvas) :
  scrollFraction w <> JS.NaN -> short_of_last h -> short_of_last (onScroll w h).
Proof.
  intros Hw S. pose proof (short_frames _ S) as HN.
  destruct S as (c & t & Ec & Et & Hc & Ht & Ho).
  destruct (scrollFraction_cases w) as [E | (f & E & Hf)]; [contradiction |].
  pose proof (target_of_fraction_range (totalFrames h) f ltac:(lia) Hf) as R.
  rewrite target_of_fraction_Fin in R.
  eexists c, _. unfold onScroll.
  cbn [currentFrame targetFrame totalFrames style_opacity set_targetFrame].
  rewrite E, target_of_fraction_Fin.
  split; [exact Ec |]. split; [reflexivity |]. split; [exact Hc |].
  split; [exact R | exact Ho].
Qed.

Lemma handle_short (p : Page) (ev : event) :
  0 < ease (hero p) < 1 ->
  (forall w, ev = Scroll w -> scrollFraction w <> JS.NaN) ->
  short_of_last (hero p) -> short_of_last (hero (handle p ev)).
Proof.
  intros He Hw S. destruct ev; simpl.
  - case_bool_decide; [| exact S]. unfold img_onload.
    apply resolve_frame_short.
    revert S. now apply short_of_last_ext.
  - case_bool_decide; [| exact S]. unfold img_onerror.
    apply resolve_frame_short.
    revert S. now apply short_of_last_ext.
  - destruct (scroll_bound p); [| exact S]. simpl.
    apply onScroll_short; auto.
  - destruct (scroll_bound p); [| exact S]. simpl. now apply loop_short.
  - now apply resize_short.
  - revert S. now apply short_of_last_ext.
  - revert S. now apply short_of_last_ext.
Qed.

Lemma run_short (evs : list event) (p : Page) :
  0 < ease (hero p) < 1 ->
  (forall w, Scroll w ∈ evs -> scrollFraction w <> JS.NaN) ->
  short_of_last (hero p) -> short_of_last (hero (run p evs)).
Proof.
  revert p. induction evs as [| ev evs IH]; intros p He Hw S; [exact S |].
  simpl. apply IH.
  - now rewrite handle_ease.
  - intros w Hin. apply Hw. now right.
  - apply handle_short; auto. intros w ->. apply Hw. now left.
Qed.

Lemma new_HeroCanvas_short (N : Z) (w : Window) (bw bh : JS.num) (cw ch : Z)
    (classes : list string) :
  (2 <= N)%Z ->
  short_of_last (hero (new_HeroCanvas N w bw bh cw ch classes)).
Proof.
  intros HN. unfold new_HeroCanvas.
  set (h0 := resize w (constructor N bw bh cw ch classes)).
  assert (S0 : short_of_last h0).
  { apply resize_short. exists 0, 0. simpl.
    assert (L : inject_Z 1 <= inject_Z (N - 1)) by (rewrite <- Zle_Qle; lia).
    change (inject_Z 1) with 1 in L.
    repeat split; try reflexivity; lra. }
  match goal with
  | |- context [Promise_all_settle ?q] =>
      destruct (Promise_all_settle_hero q) as [E | E]; rewrite E
  end; cbn [hero]; fold h0; [exact S0 |].
  apply set_opacity_one_short. apply drawFrame_short; [| exact S0].
  pose proof (short_frames _ S0). lia.
Qed.

Lemma new_HeroCanvas_ease (N : Z) (w : Window) (bw bh : JS.num) (cw ch : Z)
    (classes : list string) :
  ease (hero (new_HeroCanvas N w bw bh cw ch classes)) = 6 # 100.
Proof.
  destruct (new_HeroCanvas_scrub N w bw bh cw ch classes) as (_ & -> & _).
  reflexivity.
Qed.

End ShortOfLastPage.

(** X8: On a canvas of at least two frames, over every run in which no scroll
    event reads [0 / 0], the position stays strictly below the last frame
    [N - 1] (in exact arithmetic: the smoothing closes a fixed fraction of
    the gap at each tick, never all of it). So the frame the loop or a resize
    draws is at most [N - 2], the last image of the sequence is never the one
    asked for, and the opacity, once set, is never below a quarter: the fade
    never completes. *)
Theorem last_frame_never_reached (N : Z) (w : Window) (bw bh : JS.num)
    (cw ch : Z) (classes : list string) (evs : list event) :
  (2 <= N)%Z ->
  (forall w', Scroll w' ∈ evs -> scrollFraction w' <> JS.NaN) ->
  let p := run (new_HeroCanvas N w bw bh cw ch classes) evs in
  exists (c : Q) (k : Z),
    currentFrame (hero p) = JS.Fin c /\
    (0 <= c /\ c < inject_Z (N - 1)) /\
    JS.Math_floor (currentFrame (hero p)) = JS.of_Z k /\
    (0 <= k <= N - 2)%Z /\
    match style_opacity (hero p) with
    | None => True
    | Some a => JS.within (1 # 4) 1 a
    end.
Proof.
  intros HN Hw p.
  assert (S : short_of_last (hero p)).
  { apply run_short; [| exact Hw | now apply new_HeroCanvas_short].
    rewrite new_HeroCanvas_ease. lra. }
  assert (EN : totalFrames (hero p) = N).
  { unfold p. clear. induction evs as [| ev evs IH] using rev_ind.
    - destruct (new_HeroCanvas_scrub N w bw bh cw ch classes) as (E & _).
      exact E.
    - unfold run in *. now rewrite foldl_snoc, handle_totalFrames. }
  destruct S as (c & t & Ec & Et & Hc & Ht & Ho). rewrite EN in *.
  exists c, (Qfloor c). rewrite Ec.
  split; [reflexivity |]. split; [exact Hc |]. split; [reflexivity |].
  split; [apply floor_short; tauto | exact Ho].
Qed.

Lemma last_frame_never_reached_witness :
  exists (c : Q) (k : Z),
    currentFrame
      (hero (run page_three
               (events_three ++ [Scroll (window_at 900 1800); Frame; Frame])))
      = JS.Fin c /\
    (0 <= c /\ c < inject_Z (3 - 1)) /\
    (0 <= k <= 3 - 2)%Z.
Proof.
  destruct (last_frame_never_reached 3 (window_at 0 1800) (JS.of_Z 300)
              (JS.of_Z 150) 300 150 ["hero"]
              (events_three ++ [Scroll (window_at 900 1800); Frame; Frame]))
    as (c & k & H1 & H2 & _ & H4 & _).
  - lia.
  - intros w' Hin. simpl in Hin.
    repeat (apply elem_of_cons in Hin as [Hin | Hin];
            [try discriminate; injection Hin as ->; vm_compute;
             discriminate |]).
    now apply elem_of_nil in Hin.
  - exists c, k. auto.
Defined.

(** ** The counter of loaded frames *)

Section Loaded.

Lemma drawFrame_loaded (index : JS.num) (h : HeroCanvas) :
  loaded (drawFrame index h) = loaded h.
Proof. open_drawFrame; reflexivity. Qed.

Lemma resize_loaded (w : Window) (h : HeroCanvas) :
  loaded (resize w h) = loaded h.
Proof.
  unfold resize. destruct (images_at _ _); [| reflexivity].
  now rewrite drawFrame_loaded.
Qed.

Lemma loop_loaded (h : HeroCanvas) : loaded (loop h) = loaded h.
Proof.
  unfold loop, crossfadeIfEnding. destruct (JS.ge _ _); simpl;
    now rewrite drawFrame_loaded.
Qed.

Lemma resolve_frame_loaded (i : nat) (p : Page) :
  loaded (hero (resolve_frame i p)) = loaded (hero p).
Proof.
  destruct (resolve_frame_hero i p) as [-> | ->]; [reflexivity |].
  simpl. apply drawFrame_loaded.
Qed.

Lemma loads_seen_snoc (n : nat) (evs : list event) (ev : event) :
  loads_seen n (evs ++ [ev]) =
    (loads_seen n evs +
     match ev with
     | Load i _ => if bool_decide (i < n)%nat then 1 else 0
     | _ => 0
     end)%Z.
Proof.
  induction evs as [| e evs IH]; simpl.
  - destruct ev; lia.
  - destruct e; rewrite IH; lia.
Qed.

Lemma handle_loaded (p : Page) (ev : event) :
  loaded (hero (handle p ev)) =
    (loaded (hero p) +
     match ev with
     | Load i _ =>
         if bool_decide (i < length (frame_promises p))%nat then 1 else 0
     | _ => 0
     end)%Z.
Proof.
  destruct ev; simpl.
  - case_bool_decide; [| lia]. unfold img_onload.
    rewrite resolve_frame_loaded. reflexivity.
  - case_bool_decide; [| lia]. unfold img_onerror.
    rewrite resolve_frame_loaded. simpl. lia.
  - destruct (scroll_bound p); simpl; lia.
  - destruct (scroll_bound p); simpl; rewrite ?loop_loaded; lia.
  - rewrite resize_loaded. lia.
  - lia.
  - lia.
Qed.

Lemma loads_seen_fetches (n : nat) (evs : list event) :
  (0 <= loads_seen n evs
   <= Z.of_nat (length (filter (λ i, i < n)%nat (fetches evs))))%Z.
Proof.
  induction evs as [| e evs IH]; simpl; [lia |].
  unfold fetches in *. destruct e; simpl; try exact IH.
  - rewrite filter_cons. case_bool_decide; case_decide; simpl; lia.
  - rewrite filter_cons. case_decide; simpl; lia.
Qed.

Lemma bounded_NoDup_length (n : nat) (l : list nat) :
  NoDup l -> (forall x, x ∈ l -> x < n)%nat -> (length l <= n)%nat.
Proof.
  intros ND H.
  assert (L : (length l <= length (seq 0 n))%nat).
  { apply submseteq_length. apply NoDup_submseteq; [exact ND |].
    intros x Hx. apply elem_of_seq. specialize (H x Hx). lia. }
  now rewrite length_seq in L.
Qed.

End Loaded.

(** X3: [loaded] counts the [load] events the canvas has handled, and nothing
    else: failures, scrolling, ticks and resizes leave it alone. When the
    fetch of each frame comes back at most once it never exceeds the number
    of frames. *)
Theorem loaded_counts_loads (N : Z) (w : Window) (bw bh : JS.num)
    (cw ch : Z) (classes : list string) (evs : list event) :
  let p := run (new_HeroCanvas N w bw bh cw ch classes) evs in
  loaded (hero p) = loads_seen (Z.to_nat N) evs /\
  (NoDup (fetches evs) ->
   (0 <= loaded (hero p) <= Z.of_nat (Z.to_nat N))%Z).
Proof.
  intros p.
  assert (E : loaded (hero p) = loads_seen (Z.to_nat N) evs).
  { unfold p. clear p. induction evs as [| ev evs IH] using rev_ind.
    - unfold run. simpl. unfold new_HeroCanvas.
      match goal with
      | |- context [Promise_all_settle ?q] =>
          destruct (Promise_all_settle_hero q) as [E | E]; rewrite E
      end; simpl; rewrite ?drawFrame_loaded, resize_loaded; reflexivity.
    - destruct (run_preload_inv N w bw bh cw ch classes evs)
        as ((HL & _) & _).
      unfold run in *. rewrite foldl_snoc, handle_loaded, IH, HL.
      now rewrite loads_seen_snoc. }
  split; [exact E |]. intros ND. rewrite E.
  pose proof (loads_seen_fetches (Z.to_nat N) evs) as [H0 H1].
  split; [exact H0 |]. etransitivity; [exact H1 |].
  apply inj_le. apply bounded_NoDup_length.
  - now apply NoDup_filter.
  - intros x Hx. now apply list_elem_of_filter in Hx as [Hx _].
Qed.

Lemma loaded_counts_loads_witness :
  loaded (hero (run page_three events_three)) = 2%Z.
Proof.
  destruct (loaded_counts_loads 3 (window_at 0 1800) (JS.of_Z 300)
              (JS.of_Z 150) 300 150 ["hero"] events_three) as [E _].
  exact E.
Defined.

(** ** Before and at the end of preloading *)

Section Binding.

Lemma Promise_all_settle_cases (p : Page) :
  (then_runs (Promise_all_settle p) = then_runs p /\
   scroll_bound (Promise_all_settle p) = scroll_bound p /\
   hero (Promise_all_settle p) = hero p) \/
  Promise_all_settle p = init_then p.
Proof.
  unfold Promise_all_settle.
  destruct (all_promise p); auto.
  destruct (existsb _ _); auto.
  destruct (forallb _ _); auto.
Qed.

Lemma resolve_frame_cases (i : nat) (p : Page) :
  (then_runs (resolve_frame i p) = then_runs p /\
   scroll_bound (resolve_frame i p) = scroll_bound p /\
   hero (resolve_frame i p) = hero p) \/
  (then_runs (resolve_frame i p) = S (then_runs p) /\
   scroll_bound (resolve_frame i p) = true /\
   hero (resolve_frame i p)
     = set_opacity (JS.of_Z 1) (drawFrame (JS.of_Z 0) (hero p))).
Proof.
  unfold resolve_frame.
  destruct (frame_promises p !! i) as [[| |] |]; auto.
  match goal with
  | |- context [Promise_all_settle ?q] =>
      destruct (Promise_all_settle_cases q) as [E | E]
  end.
  - left. exact E.
  - right. rewrite E. auto.
Qed.

(** What a handler does to the binding and to the scrub state. *)
Lemma handle_binding (p : Page) (ev : event) :
  (scroll_bound p = true -> scroll_bound (handle p ev) = true) /\
  (scroll_bound p = false ->
   currentFrame (hero (handle p ev)) = currentFrame (hero p) /\
   targetFrame (hero (handle p ev)) = targetFrame (hero p)) /\
  (then_runs (handle p ev) = then_runs p \/
   then_runs (handle p ev) = S (then_runs p) /\
   scroll_bound (handle p ev) = true /\
   style_opacity (hero (handle p ev)) = Some (JS.of_Z 1)).
Proof.
  pose proof (handle_same_scrub p ev) as SS.
  destruct ev; simpl in *.
  - case_bool_decide; [| tauto]. unfold img_onload in *.
    match goal with
    | |- context [resolve_frame ?i ?q] =>
        destruct (resolve_frame_cases i q) as [(E1 & E2 & E3) | (E1 & E2 & E3)]
    end; rewrite E1, E2; destruct SS as (_ & _ & S3 & S4 & _);
      (split; [auto |]); (split; [auto |]); [left; auto |].
    right. rewrite E3. auto.
  - case_bool_decide; [| tauto]. unfold img_onerror in *.
    match goal with
    | |- context [resolve_frame ?i ?q] =>
        destruct (resolve_frame_cases i q) as [(E1 & E2 & E3) | (E1 & E2 & E3)]
    end; rewrite E1, E2; destruct SS as (_ & _ & S3 & S4 & _);
      (split; [auto |]); (split; [auto |]); [left; auto |].
    right. rewrite E3. auto.
  - destruct (scroll_bound p) eqn:B; simpl; rewrite ?B; auto.
    split; [auto |]. split; [discriminate | auto].
  - destruct (scroll_bound p) eqn:B; simpl; rewrite ?B; auto.
    split; [auto |]. split; [discriminate | auto].
  - destruct SS as (_ & _ & S3 & S4 & _). auto.
  - auto.
  - auto.
Qed.

Lemma run_unbound_scrub (evs : list event) (p : Page) :
  scroll_bound (run p evs) = false ->
  scroll_bound p = false /\
  currentFrame (hero (run p evs)) = currentFrame (hero p) /\
  targetFrame (hero (run p evs)) = targetFrame (hero p).
Proof.
  induction evs as [| ev evs IH] using rev_ind; [now auto |].
  unfold run in *. rewrite foldl_snoc. intros B.
  destruct (handle_binding (foldl handle p evs) ev) as (M & K & _).
  destruct (scroll_bound (foldl handle p evs)) eqn:Bq.
  - rewrite M in B by reflexivity. discriminate.
  - destruct (IH eq_refl) as (B0 & C & T).
    destruct (K eq_refl) as [-> ->]. auto.
Qed.

End Binding.

(** The page while a fetch is outstanding. *)
Lemma run_unsettled (N : Z) (w : Window) (bw bh : JS.num)
    (cw ch : Z) (classes : list string) (evs : list event) (i : nat) :
  (i < Z.to_nat N)%nat -> i ∉ fetches evs ->
  let p := run (new_HeroCanvas N w bw bh cw ch classes) evs in
  scroll_bound p = false /\ then_runs p = 0%nat /\
  currentFrame (hero p) = JS.of_Z 0 /\ targetFrame (hero p) = JS.of_Z 0 /\
  (forall w', handle p (Scroll w') = p) /\
  handle p Frame = p.
Proof.
  intros Hi Hni p.
  destruct (run_preload_inv N w bw bh cw ch classes evs)
    as ((HL & HP & HA & HT & HB) & _).
  fold p in HL, HP, HA, HT, HB.
  assert (F : forallb is_fulfilled (frame_promises p) = false).
  { destruct (forallb is_fulfilled (frame_promises p)) eqn:F; [| reflexivity].
    rewrite forallb_fulfilled in F. specialize (F i _ (HP i Hi)).
    rewrite bool_decide_eq_false_2 in F by exact Hni. discriminate. }
  rewrite F in HT, HB.
  destruct (run_unbound_scrub evs _ HB) as (_ & C & T). fold p in C, T.
  destruct (new_HeroCanvas_scrub N w bw bh cw ch classes)
    as (_ & _ & C0 & T0 & _).
  rewrite C0 in C. rewrite T0 in T.
  split; [exact HB |]. split; [exact HT |].
  split; [exact C |]. split; [exact T |].
  simpl. rewrite HB. auto.
Qed.

(** X4: Until the fetch of every frame has come back, the scroll handler is not
    bound and the loop does not run: scroll events and animation frames
    reaching the page change nothing, and the scrub state is still at frame
    0. *)
Theorem unsettled_ignores_scrolling (N : Z) (w : Window) (bw bh : JS.num)
    (cw ch : Z) (classes : list string) (evs : list event) (i : nat) :
  (i < Z.to_nat N)%nat -> i ∉ fetches evs ->
  let p := run (new_HeroCanvas N w bw bh cw ch classes) evs in
  scroll_bound p = false /\ then_runs p = 0%nat /\
  currentFrame (hero p) = JS.of_Z 0 /\ targetFrame (hero p) = JS.of_Z 0 /\
  (forall w', handle p (Scroll w') = p) /\
  handle p Frame = p.
Proof. apply run_unsettled. Qed.

Lemma unsettled_ignores_scrolling_witness :
  scroll_bound (run page_three [Load 2 frame_image; Error 1]) = false /\
  handle (run page_three [Load 2 frame_image; Error 1])
    (Scroll (window_at 450 1800))
  = run page_three [Load 2 frame_image; Error 1].
Proof.
  destruct (unsettled_ignores_scrolling 3 (window_at 0 1800) (JS.of_Z 300)
              (JS.of_Z 150) 300 150 ["hero"]
              [Load 2 frame_image; Error 1] 0)
    as (H1 & _ & _ & _ & H5 & _).
  - vm_compute. lia.
  - intros H. vm_compute in H.
    repeat (apply elem_of_cons in H as [H | H]; [discriminate |]).
    now apply elem_of_nil in H.
  - split; [exact H1 | apply H5].
Defined.

(** X5: The event that brings back the last outstanding fetch runs the reaction
    of [init], once: the scroll handler is bound and the canvas is made fully
    opaque, whatever opacity the draw of frame 0 has just set (for a sequence
    of 8 frames or fewer frame 0 is in the fade). *)
Theorem settling_shows_canvas (N : Z) (w : Window) (bw bh : JS.num)
    (cw ch : Z) (classes : list string) (evs : list event) (ev : event)
    (i : nat) :
  (i < Z.to_nat N)%nat -> i ∉ fetches evs ->
  (forall j, (j < Z.to_nat N)%nat -> j ∈ fetches (evs ++ [ev])) ->
  let p := run (new_HeroCanvas N w bw bh cw ch classes) evs in
  then_runs p = 0%nat /\
  then_runs (handle p ev) = 1%nat /\
  scroll_bound (handle p ev) = true /\
  style_opacity (hero (handle p ev)) = Some (JS.of_Z 1).
Proof.
  intros Hi Hni Hall p.
  destruct (run_unsettled N w bw bh cw ch classes evs i Hi Hni)
    as (_ & T0 & _).
  fold p in T0.
  destruct (run_preload_inv N w bw bh cw ch classes (evs ++ [ev]))
    as ((HL & HP & HA & HT & HB) & _).
  unfold run in HL, HP, HA, HT, HB. rewrite foldl_snoc in HL, HP, HA, HT, HB.
  fold (run (new_HeroCanvas N w bw bh cw ch classes) evs) in HL, HP, HA, HT, HB.
  fold p in HL, HP, HA, HT, HB.
  assert (F : forallb is_fulfilled (frame_promises (handle p ev)) = true).
  { apply forallb_fulfilled. intros j s Hj.
    assert (Hjn : (j < Z.to_nat N)%nat).
    { rewrite <- HL. apply lookup_lt_is_Some. eauto. }
    rewrite (HP j Hjn) in Hj. injection Hj as <-.
    now rewrite bool_decide_eq_true_2 by auto. }
  rewrite F in HT, HB.
  split; [exact T0 |]. split; [exact HT |]. split; [exact HB |].
  destruct (handle_binding p ev) as (_ & _ & [E | (_ & _ & E)]).
  - rewrite HT, T0 in E. discriminate.
  - exact E.
Qed.

Lemma settling_shows_canvas_witness :
  style_opacity
    (hero (handle (run page_three [Load 2 frame_image; Error 1])
             (Load 0 frame_image)))
  = Some (JS.of_Z 1) /\
  fade_alpha 3 (JS.of_Z 0) =n= JS.Fin (3 # 8).
Proof.
  destruct (settling_shows_canvas 3 (window_at 0 1800) (JS.of_Z 300)
              (JS.of_Z 150) 300 150 ["hero"]
              [Load 2 frame_image; Error 1] (Load 0 frame_image) 0)
    as (_ & _ & _ & H).
  - vm_compute. lia.
  - intros H. vm_compute in H.
    repeat (apply elem_of_cons in H as [H | H]; [discriminate |]).
    now apply elem_of_nil in H.
  - intros j Hj. change (Z.to_nat 3) with 3%nat in Hj.
    destruct j as [| [| [| j]]]; [| | | lia];
      apply (bool_decide_unpack _); reflexivity.
  - split; [exact H | vm_compute; reflexivity].
Defined.

(** ** The direct variant: one draw per burst of scroll events *)

Section DirectFacts.

Lemma Qmin_inject_Z (a b : Z) :
  Qmin (inject_Z a) (inject_Z b) = inject_Z (Z.min a b).
Proof.
  unfold Qmin, GenericMinMax.gmin, Z.min, Qcompare. simpl.
  rewrite !Z.mul_1_r. now destruct (a ?= b)%Z.
Qed.

(** The frame the direct handler selects is a whole number. *)
Lemma frameIndex_direct_Z (N : Z) (f : Q) :
  frameIndex_direct N (JS.Fin f)
    = JS.of_Z (Z.min (N - 1) (Qfloor (f * inject_Z N))).
Proof.
  unfold frameIndex_direct, JS.of_Z. cbn [JS.mul JS.Math_floor JS.Math_min].
  unfold JS.of_Z. now rewrite Qmin_inject_Z.
Qed.

Lemma direct_resize_fields (w : Window) (d : Direct.Hero) :
  totalFrames (Direct.base (Direct.resize w d)) = totalFrames (Direct.base d) /\
  currentFrame (Direct.base (Direct.resize w d))
    = currentFrame (Direct.base d) /\
  Direct.needsRender (Direct.resize w d) = Direct.needsRender d.
Proof.
  unfold Direct.resize. cbn [Direct.base Direct.needsRender].
  destruct (images_at _ _);
    rewrite ?drawFrame_totalFrames, ?drawFrame_currentFrame; auto.
Qed.

Lemma direct_loop_fields (d : Direct.Hero) :
  totalFrames (Direct.base (Direct.loop d)) = totalFrames (Direct.base d) /\
  currentFrame (Direct.base (Direct.loop d)) = currentFrame (Direct.base d).
Proof.
  unfold Direct.loop. destruct (Direct.needsRender d); [| auto].
  cbn [Direct.base].
  now rewrite crossfadeIfEnding_totalFrames, crossfadeIfEnding_currentFrame,
    drawFrame_totalFrames, drawFrame_currentFrame.
Qed.

Lemma direct_onScroll_invariant (w : Window) (d : Direct.Hero) :
  (1 <= totalFrames (Direct.base d))%Z -> scrollFraction w <> JS.NaN ->
  Direct.frame_invariant (Direct.onScroll w d).
Proof.
  intros HN Hw.
  destruct (scrollFraction_cases w) as [E | (f & E & Hf)]; [contradiction |].
  unfold Direct.frame_invariant, Direct.onScroll, onScroll_direct.
  cbn [Direct.base currentFrame totalFrames set_currentFrame].
  rewrite E, frameIndex_direct_Z. eexists. split; [reflexivity |].
  assert (H0 : (0 <= Qfloor (f * inject_Z (totalFrames (Direct.base d))))%Z).
  { rewrite <- (Qfloor_Z 0). apply Qfloor_resp_le.
    change (inject_Z 0) with 0. apply Qmult_le_0_compat; [lra |].
    change 0 with (inject_Z 0). rewrite <- Zle_Qle. lia. }
  lia.
Qed.

Lemma direct_handle_invariant (d : Direct.Hero) (ev : Direct.event) :
  (1 <= totalFrames (Direct.base d))%Z ->
  (forall w, ev = Direct.Scroll w -> scrollFraction w <> JS.NaN) ->
  Direct.frame_invariant d ->
  Direct.frame_invariant (Direct.handle d ev) /\
  totalFrames (Direct.base (Direct.handle d ev)) = totalFrames (Direct.base d).
Proof.
  intros HN Hw (k & Ek & Hk). destruct ev; simpl.
  - split; [apply direct_onScroll_invariant; auto | reflexivity].
  - destruct (direct_loop_fields d) as (E1 & E2).
    split; [| exact E1]. exists k. now rewrite E1, E2.
  - destruct (direct_resize_fields w d) as (E1 & E2 & _).
    split; [| exact E1]. exists k. now rewrite E1, E2.
Qed.

End DirectFacts.


(** X13: In the direct variant the position is always a whole frame of the
    sequence, over every run in which no scroll event reads [0 / 0]; at the
    bottom of a scrollable page it is the last frame [N - 1], which the next
    tick draws, when its image has loaded, at opacity [1/8]. *)
Theorem direct_reaches_last_frame (d : Direct.Hero)
    (evs : list Direct.event) (w : Window) (img : image) :
  (1 <= totalFrames (Direct.base d))%Z ->
  Direct.frame_invariant d ->
  (forall w', Direct.Scroll w' ∈ evs -> scrollFraction w' <> JS.NaN) ->
  (innerHeight w < scrollHeight w)%Z ->
  inject_Z (scrollHeight w - innerHeight w) <= scrollTopQ w ->
  images_at (Direct.base d) (JS.of_Z (totalFrames (Direct.base d) - 1))
    = Some img ->
  img_width img <> 0%Z ->
  Direct.frame_invariant (Direct.run d evs) /\
  currentFrame (Direct.base (Direct.onScroll w d))
    = JS.of_Z (totalFrames (Direct.base d) - 1) /\
  exists a : Q,
    style_opacity (Direct.base (Direct.loop (Direct.onScroll w d)))
      = Some (JS.Fin a) /\
    a == 1 # 8.
Proof.
  intros HN Inv Hevs Hs Hbot Himg Hw.
  split; [| split].
  - clear Himg Hbot Hs.
    assert (G : Direct.frame_invariant (Direct.run d evs) /\
                totalFrames (Direct.base (Direct.run d evs))
                  = totalFrames (Direct.base d)).
    { induction evs as [| ev evs IH] using rev_ind; [now auto |].
      unfold Direct.run in *. rewrite foldl_snoc.
      destruct IH as [I1 I2].
      { intros w' Hin. apply Hevs. apply elem_of_app. now left. }
      destruct (direct_handle_invariant (foldl Direct.handle d evs) ev)
        as [J1 J2]; auto.
      - now rewrite I2.
      - intros w' ->. apply Hevs. apply elem_of_app. right.
        now apply list_elem_of_singleton.
      - split; [exact J1 | now rewrite J2]. }
    apply G.
  - unfold Direct.onScroll, onScroll_direct.
    cbn [Direct.base currentFrame set_currentFrame].
    rewrite (scrollFraction_scrollable w) by lia.
    rewrite frameIndex_direct_Z. f_equal.
    set (N := totalFrames (Direct.base d)) in *.
    set (range := inject_Z (scrollHeight w - innerHeight w)) in *.
    assert (Hr : 0 < range) by (unfold range; apply inject_Z_pos; lia).
    assert (Hq : 1 <= scrollTopQ w / range).
    { apply Qle_shift_div_l; [exact Hr | lra]. }
    assert (E1 : Qmax 0 (Qmin 1 (scrollTopQ w / range)) == 1).
    { destruct (Qmin_cases 1 (scrollTopQ w / range)) as [[? E] | [? E]];
        destruct (Qmax_cases 0 (Qmin 1 (scrollTopQ w / range)))
          as [[? E'] | [? E']]; rewrite E'; rewrite ?E in *; lra. }
    assert (E2 : Qmax 0 (Qmin 1 (scrollTopQ w / range)) * inject_Z N
                 == inject_Z N) by (rewrite E1; ring).
    rewrite (Qfloor_comp _ _ E2), Qfloor_Z. lia.
  - set (N := totalFrames (Direct.base d)) in *.
    assert (E : currentFrame (Direct.base (Direct.onScroll w d))
                = JS.of_Z (N - 1)).
    { unfold Direct.onScroll, onScroll_direct.
      cbn [Direct.base currentFrame set_currentFrame].
      rewrite (scrollFraction_scrollable w) by lia.
      rewrite frameIndex_direct_Z. f_equal. fold N.
      set (range := inject_Z (scrollHeight w - innerHeight w)) in *.
      assert (Hr : 0 < range) by (unfold range; apply inject_Z_pos; lia).
      assert (Hq : 1 <= scrollTopQ w / range).
      { apply Qle_shift_div_l; [exact Hr | lra]. }
      assert (E1 : Qmax 0 (Qmin 1 (scrollTopQ w / range)) == 1).
      { destruct (Qmin_cases 1 (scrollTopQ w / range)) as [[? E] | [? E]];
          destruct (Qmax_cases 0 (Qmin 1 (scrollTopQ w / range)))
            as [[? E'] | [? E']]; rewrite E'; rewrite ?E in *; lra. }
      assert (E2 : Qmax 0 (Qmin 1 (scrollTopQ w / range)) * inject_Z N
                   == inject_Z N) by (rewrite E1; ring).
      rewrite (Qfloor_comp _ _ E2), Qfloor_Z. lia. }
    unfold Direct.loop. cbn [Direct.needsRender Direct.onScroll Direct.base].
    change (onScroll_direct w (Direct.base d))
      with (Direct.base (Direct.onScroll w d)).
    rewrite E.
    set (h1 := Direct.base (Direct.onScroll w d)).
    assert (Himg1 : images_at h1 (JS.of_Z (N - 1)) = Some img) by exact Himg.
    destruct (drawFrame_available _ _ _ Himg1 Hw) as [Eo _].
    assert (Eop : style_opacity
                    (crossfadeIfEnding (drawFrame (JS.of_Z (N - 1)) h1))
                  = style_opacity (drawFrame (JS.of_Z (N - 1)) h1)).
    { unfold crossfadeIfEnding. now destruct (JS.ge _ _). }
    rewrite Eop, Eo.
    assert (EN : totalFrames h1 = N) by reflexivity. rewrite EN.
    destruct (fade_alpha_value N (N - 1) ltac:(lia)) as (a & Ea & Ha).
    exists a. split; [now rewrite Ea |]. rewrite Ha.
    replace (N - (N - 1))%Z with 1%Z by lia. reflexivity.
Qed.

Lemma direct_reaches_last_frame_witness :
  Direct.frame_invariant
    (Direct.run direct_loaded
       [Direct.Scroll (window_at 450 1800); Direct.Frame]) /\
  currentFrame
    (Direct.base (Direct.onScroll (window_at 900 1800) direct_loaded))
    = JS.of_Z 63 /\
  exists a : Q,
    style_opacity
      (Direct.base
         (Direct.loop (Direct.onScroll (window_at 900 1800) direct_loaded)))
      = Some (JS.Fin a) /\
    a == 1 # 8.
Proof.
  apply (direct_reaches_last_frame direct_loaded
           [Direct.Scroll (window_at 450 1800); Direct.Frame]
           (window_at 900 1800) frame_image).
  - vm_compute. discriminate.
  - exists 0%Z. split; [reflexivity | vm_compute; split; discriminate].
  - intros w' Hin.
    repeat (apply elem_of_cons in Hin as [Hin | Hin];
            [try discriminate; injection Hin as ->; vm_compute;
             discriminate |]).
    now apply elem_of_nil in Hin.
  - vm_compute. reflexivity.
  - vm_compute. discriminate.
  - vm_compute. reflexivity.
  - vm_compute. discriminate.
Defined.

(** ** A short sequence signals at once *)

(** X11: With one or two frames the threshold [N - 2] is not above 0, so the
    first tick sets the end-of-sequence signal whatever the scroll position. *)
Theorem short_sequence_signals_at_once (h : HeroCanvas) :
  (totalFrames h <= 2)%Z -> 0 < ease h < 1 -> scrub_invariant h ->
  "visible" ∈ hero_classList (loop h).
Proof.
  intros HN He Inv. apply loop_signals.
  destruct (loop_invariant h He Inv) as [_ Hc].
  rewrite loop_totalFrames in Hc.
  destruct (currentFrame (loop h)) as [| | | c]; try contradiction.
  simpl in Hc. unfold JS.ge, JS.le, JS.of_Z. apply Qle_bool_true.
  assert (L : inject_Z (totalFrames h - 2) <= inject_Z 0)
    by (rewrite <- Zle_Qle; lia).
  change (inject_Z 0) with 0 in L. lra.
Qed.

Lemma short_sequence_signals_at_once_witness :
  ("visible" ∉
     hero_classList
       (constructor 2 (JS.of_Z 300) (JS.of_Z 150) 300 150 ["hero"])) /\
  ("visible" ∈ hero_classList
                 (loop (constructor 2 (JS.of_Z 300) (JS.of_Z 150) 300 150
                          ["hero"]))).
Proof.
  split.
  - intros H. apply elem_of_cons in H as [H | H]; [discriminate |].
    now apply elem_of_nil in H.
  - apply (short_sequence_signals_at_once
             (constructor 2 (JS.of_Z 300) (JS.of_Z 150) 300 150 ["hero"])).
    + simpl. lia.
    + simpl. lra.
    + vm_compute. intuition discriminate.
Defined.

(** ** Parallax *)

(** X14: The parallax offset of an element is minus the scroll position times
    its speed, so it is additive in the scroll position; an attribute that is
    not a number, and also the speed 0, give the default speed 0.02. *)
Theorem parallax_offset (scY scY' s : Q) :
  ~ s == 0 ->
  parallax_translateY scY (JS.Fin s) =n= JS.Fin (- (scY * s)) /\
  parallax_translateY scY JS.NaN =n= JS.Fin (- (scY * (2 # 100))) /\
  parallax_translateY scY (JS.Fin 0) =n= JS.Fin (- (scY * (2 # 100))) /\
  JS.add (parallax_translateY scY (JS.Fin s))
         (parallax_translateY scY' (JS.Fin s))
    =n= parallax_translateY (scY + scY') (JS.Fin s).
Proof.
  intros Hs.
  assert (T : JS.truthy (JS.Fin s) = true).
  { unfold JS.truthy. destruct (Qeq_bool s 0) eqn:E; [| reflexivity].
    apply Qeq_bool_iff in E. contradiction. }
  unfold parallax_translateY, parallax_speed, JS.or. rewrite T.
  repeat split; simpl; try reflexivity. ring.
Qed.

Lemma parallax_offset_witness :
  parallax_translateY 400 (JS.Fin (5 # 100)) =n= JS.Fin (- (20)) /\
  parallax_translateY 400 (JS.Fin 0) =n= JS.Fin (- (8)).
Proof.
  destruct (parallax_offset 400 0 (5 # 100)) as (H1 & _ & H3 & _).
  - intros H. discriminate.
  - split.
    + eapply eqv_trans; [exact H1 |]. reflexivity.
    + eapply eqv_trans; [exact H3 |]. reflexivity.
Defined.

(** ** The highlight of the sticky specs *)

Section Specs.

Lemma classList_remove_spec (c x : string) (l : list string) :
  x ∈ classList_remove c l <-> x <> c /\ x ∈ l.
Proof. unfold classList_remove. rewrite list_elem_of_filter. tauto. Qed.

Lemma classList_add_spec (c x : string) (l : list string) :
  x ∈ classList_add c l <-> x = c \/ x ∈ l.
Proof.
  unfold classList_add. case_bool_decide as H.
  - split; [auto | intros [-> | ?]; assumption].
  - rewrite elem_of_app, list_elem_of_singleton. tauto.
Qed.

Lemma spec_active_removed (s : spec_el) :
  spec_active (spec_remove_active s) = false.
Proof.
  unfold spec_active, classList_contains. apply bool_decide_eq_false.
  cbn [spec_classList spec_remove_active]. rewrite classList_remove_spec.
  tauto.
Qed.

Lemma spec_active_added (s : spec_el) :
  spec_active (spec_add_active s) = true.
Proof.
  unfold spec_active, classList_contains. apply bool_decide_eq_true.
  apply classList_add_in.
Qed.

Lemma first_match_removed (idx : JS.num) (specs : list spec_el) :
  first_match idx (spec_remove_active <$> specs) = first_match idx specs.
Proof.
  induction specs as [| s specs IH]; [reflexivity |].
  simpl. destruct (strict_eq (dataset_index s) idx); [reflexivity |].
  f_equal. exact IH.
Qed.

Lemma first_match_NaN (specs : list spec_el) : first_match JS.NaN specs = None.
Proof.
  induction specs as [| s specs IH]; [reflexivity |].
  simpl. rewrite IH. now destruct (dataset_index s).
Qed.

Lemma activate_first_lookup (idx : JS.num) (specs : list spec_el) (k : nat) :
  activate_first idx specs !! k =
    if bool_decide (first_match idx specs = Some k)
    then spec_add_active <$> specs !! k
    else specs !! k.
Proof.
  revert k. induction specs as [| s specs IH]; intros k.
  - cbn [activate_first first_match]. rewrite lookup_nil.
    now destruct (bool_decide _).
  - cbn [activate_first first_match].
    destruct (strict_eq (dataset_index s) idx).
    + destruct k as [| k].
      * now rewrite bool_decide_eq_true_2.
      * now rewrite bool_decide_eq_false_2 by discriminate.
    + destruct k as [| k].
      * rewrite bool_decide_eq_false_2; [reflexivity |].
        intros H. destruct (first_match idx specs); simpl in H; discriminate.
      * change ((s :: activate_first idx specs) !! S k)
          with (activate_first idx specs !! k).
        change ((s :: specs) !! S k) with (specs !! k).
        rewrite IH. apply (f_equal (fun b : bool => if b then _ else _)).
        apply bool_decide_ext.
        destruct (first_match idx specs); simpl; split; congruence.
Qed.

Lemma activate_first_length (idx : JS.num) (specs : list spec_el) :
  length (activate_first idx specs) = length specs.
Proof.
  induction specs as [| s specs IH]; [reflexivity |].
  simpl. destruct (strict_eq _ _); simpl; now rewrite ?IH.
Qed.

End Specs.

(** X15: When a detail block enters the viewport, the spec highlighted
    afterwards is the first one whose index equals the number of the block, and no
    other: two specs with the same index do not both light up, and when no
    spec matches, as for a block whose id yields no number, every highlight
    is cleared. The other classes of the specs are untouched, and an entry
    that is not intersecting changes nothing. *)
Theorem sticky_highlights_first_match (idx : JS.num) (specs : list spec_el)
    (k : nat) (s : spec_el) :
  specs !! k = Some s ->
  (exists s' : spec_el,
     spec_entry true idx specs !! k = Some s' /\
     dataset_index s' = dataset_index s /\
     (spec_active s' = true <-> first_match idx specs = Some k) /\
     (forall c : string,
        c <> "active" ->
        (c ∈ spec_classList s' <-> c ∈ spec_classList s))) /\
  length (spec_entry true idx specs) = length specs /\
  first_match JS.NaN specs = None /\
  spec_entry false idx specs = specs.
Proof.
  intros Hk. split; [| split; [| split; [apply first_match_NaN | reflexivity]]].
  - unfold spec_entry. rewrite activate_first_lookup, first_match_removed.
    rewrite list_lookup_fmap, Hk. simpl.
    case_bool_decide as E.
    + eexists. split; [reflexivity |]. split; [reflexivity |]. split.
      * split; [intros _; exact E | intros _; apply spec_active_added].
      * intros c Hc. cbn [spec_classList spec_add_active spec_remove_active].
        rewrite classList_add_spec, classList_remove_spec. tauto.
    + eexists. split; [reflexivity |]. split; [reflexivity |]. split.
      * rewrite spec_active_removed. split; [discriminate | contradiction].
      * intros c Hc. cbn [spec_classList spec_remove_active].
        rewrite classList_remove_spec. tauto.
  - unfold spec_entry. now rewrite activate_first_length, length_fmap.
Qed.

Lemma sticky_highlights_first_match_witness :
  (spec_active <$> spec_entry true (JS.of_Z 1) specs_three)
    = [false; true; false] /\
  (spec_active <$> spec_entry true JS.NaN specs_three)
    = [false; false; false] /\
  exists s' : spec_el,
    spec_entry true (JS.of_Z 1) specs_three !! 2%nat = Some s' /\
    (spec_active s' = true <->
     first_match (JS.of_Z 1) specs_three = Some 2%nat).
Proof.
  split; [reflexivity |]. split; [reflexivity |].
  destruct (sticky_highlights_first_match (JS.of_Z 1) specs_three 2
              {| dataset_index := JS.of_Z 1;
                 spec_classList := ["spec"; "wide"] |})
    as ((s' & H1 & _ & H3 & _) & _).
  - reflexivity.
  - exists s'. split; assumption.
Defined.
